(** * gulf.js: the fuzzy byte patcher [patchLabelBytesIfNeeded]

    A shallow embedding of the label patcher of [src/gulf.js] and the
    properties of its matcher and of its in-place patch.

    The buffer is a [Uint8Array]: a fixed-length array of bytes.  It is
    modelled as a [list Z]; a read [labelBytes[k]] is the list lookup
    [labelBytes !! k], whose [None] stands for JavaScript's [undefined]
    (a read past the end), and a store outside the bounds of a typed array
    is dropped by the engine, which [store] writes out. *)

From Stdlib Require Import ZArith Lia String Ascii.
From stdpp Require Import base list.

#[local] Open Scope Z_scope.

(** ** Byte values and the constants of the source *)

(** [char.charCodeAt(0)] of an ASCII character. *)
Definition charCodeAt (c : ascii) : Z := Z.of_N (N_of_ascii c).

(** [[...s].map(char => char.charCodeAt(0))] *)
Fixpoint charCodes (s : string) : list Z :=
  match s with
  | EmptyString => []
  | String c s' => charCodeAt c :: charCodes s'
  end.

Definition SEARCH_PATTERN_BYTES : list Z := charCodes "Gulf of Mexico".
Definition CHAR_CODE_SPACE : Z := charCodeAt " ".
Definition CHAR_CODE_CAPITAL_M : Z := charCodeAt "M".
Definition CHAR_CODE_PARENTH : Z := charCodeAt "(".
(** [")".charCodeAt(0)], which line 155 writes in place. *)
Definition CHAR_CODE_CLOSE : Z := charCodeAt ")".
Definition REPLACEMENT_BYTES : list Z := charCodes "Sweden".

(** A JavaScript value read from the buffer: a byte, or [undefined]. *)
Abbreviation value := (option Z).

(** [v > n] and [v < n] on a value: a comparison with [undefined] is
    false. *)
Definition js_gt (v : value) (n : Z) : bool :=
  match v with Some c => n <? c | None => false end.
Definition js_lt (v : value) (n : Z) : bool :=
  match v with Some c => c <? n | None => false end.

(** [v == n] ([undefined] equals no number). *)
Definition js_eq (v : value) (n : Z) : bool :=
  match v with Some c => c =? n | None => false end.

(** [isAlphaChar], lines 180-182. *)
Definition isAlphaChar (code : value) : bool :=
  (js_gt code 64 && js_lt code 91) || (js_gt code 96 && js_lt code 123).

(** ** The buffer and its stores *)

(** The state of a run: the bytes of the typed array, and the index of
    every element store the code has issued, most recent first. *)
Record State : Type := mkState {
  bytes : list Z;
  writes : list Z
}.

(** [labelBytes[idx] = v].  A typed array neither grows nor takes a
    negative index: such a store changes nothing.  The store is recorded
    in either case. *)
Definition store (idx : Z) (v : Z) (st : State) : State :=
  {| bytes := if (0 <=? idx) && (idx <? Z.of_nat (length (bytes st)))
              then <[Z.to_nat idx := v]> (bytes st)
              else bytes st;
     writes := idx :: writes st |}.

(** ** The scan phase, lines 108-135 *)

(** The [do ... while] of lines 122-124: [labelByteOffset] is incremented
    until the byte at [labelByteStartingIndex + labelByteOffset] is
    alphabetic.  The loop has no bound of its own, so the model takes a
    number of iterations it may run; [None] is a loop that has not ended
    within them.  The counter is a natural number here; the double of the
    source stops growing at 2^53, far past the end of any buffer, where
    every read is [undefined] as well. *)
Fixpoint skipGap (fuel : nat) (labelBytes : list Z)
    (labelByteStartingIndex labelByteOffset : nat) : option nat :=
  match fuel with
  | O => None
  | S fuel' =>
      let labelByteOffset := S labelByteOffset in
      if negb (isAlphaChar
                 (labelBytes !! (labelByteStartingIndex + labelByteOffset)%nat))
      then skipGap fuel' labelBytes labelByteStartingIndex labelByteOffset
      else Some labelByteOffset
  end.

(** The inner [for] over the pattern, lines 111-135, from the pattern
    bytes still to be consumed and the current [labelByteOffset]; the
    result is [foundMatch]. *)
Fixpoint matchPattern (fuel : nat) (labelBytes : list Z)
    (labelByteStartingIndex : nat) (pattern : list Z)
    (labelByteOffset : nat) : option bool :=
  match pattern with
  | [] => Some true
  | searchByte :: pattern' =>
      if (length labelBytes <=? labelByteStartingIndex + labelByteOffset)%nat
      then Some false
      else
        let labelByte :=
          labelBytes !! (labelByteStartingIndex + labelByteOffset)%nat in
        if (searchByte =? CHAR_CODE_SPACE) && negb (isAlphaChar labelByte)
        then
          match skipGap fuel labelBytes labelByteStartingIndex
                  labelByteOffset with
          | None => None
          | Some labelByteOffset' =>
              matchPattern fuel labelBytes labelByteStartingIndex pattern'
                labelByteOffset'
          end
        else if js_eq labelByte searchByte
        then matchPattern fuel labelBytes labelByteStartingIndex pattern'
               (S labelByteOffset)
        else Some false
  end.

(** [foundMatch] for one candidate start index. *)
Definition foundMatch (fuel : nat) (labelBytes : list Z)
    (labelByteStartingIndex : nat) : option bool :=
  matchPattern fuel labelBytes labelByteStartingIndex SEARCH_PATTERN_BYTES 0.

(** ** The patch phase, lines 137-169 *)

(** [labelBytes.indexOf(x, fromIndex)]: the first index at or after
    [fromIndex] that holds [x], or [-1]. *)
Fixpoint indexOfFrom (l : list Z) (x : Z) (k : nat) : Z :=
  match l with
  | [] => -1
  | y :: l' => if y =? x then Z.of_nat k else indexOfFrom l' x (S k)
  end.

Definition indexOf (labelBytes : list Z) (x : Z) (fromIndex : nat) : Z :=
  indexOfFrom (drop fromIndex labelBytes) x fromIndex.

(** The search of lines 142-148, with [n] indices left to visit from
    [i]. *)
Fixpoint findParenthFrom (n : nat) (labelBytes : list Z) (i : nat) : Z :=
  match n with
  | O => -1
  | S n' =>
      if js_eq (labelBytes !! i) CHAR_CODE_PARENTH
         && isAlphaChar (labelBytes !! (i + 1)%nat)
      then Z.of_nat i
      else findParenthFrom n' labelBytes (S i)
  end.

Definition findParenthStart (labelBytes : list Z) : Z :=
  findParenthFrom (length labelBytes) labelBytes 0.

(** The [while] of lines 155-158, run for at most [n] iterations; it
    returns the state and the final [i]. *)
Fixpoint eraseLoop (n : nat) (i : nat) (st : State) : State * nat :=
  match n with
  | O => (st, i)
  | S n' =>
      if (i <? length (bytes st))%nat
         && negb (js_eq (bytes st !! i) CHAR_CODE_CLOSE)
      then eraseLoop n' (S i) (store (Z.of_nat i) CHAR_CODE_SPACE st)
      else (st, i)
  end.

(** Lines 151-164.  The loop advances [i] by one per iteration and stops
    at the length, so [length - parenthStartIndex] iterations exhaust
    it ([eraseLoop_exit] below). *)
Definition eraseParenth (parenthStartIndex : Z) (st : State) : State :=
  if parenthStartIndex >? -1 then
    let start := Z.to_nat parenthStartIndex in
    let '(st', i) := eraseLoop (length (bytes st) - start) start st in
    if (i <? length (bytes st'))%nat
    then store (Z.of_nat i) CHAR_CODE_SPACE st'
    else st'
  else st.

(** Lines 166-168, from index [i] of [REPLACEMENT_BYTES] on. *)
Fixpoint replaceLoop (mexicoStartIndex : Z) (rest : list Z) (i : nat)
    (st : State) : State :=
  match rest with
  | [] => st
  | b :: rest' =>
      replaceLoop mexicoStartIndex rest' (S i)
        (store (mexicoStartIndex + Z.of_nat i) b st)
  end.

(** The body of [if (foundMatch)], lines 137-169. *)
Definition applyPatch (labelByteStartingIndex : nat) (st : State) : State :=
  let mexicoStartIndex :=
    indexOf (bytes st) CHAR_CODE_CAPITAL_M labelByteStartingIndex in
  let parenthStartIndex := findParenthStart (bytes st) in
  let st' := eraseParenth parenthStartIndex st in
  replaceLoop mexicoStartIndex REPLACEMENT_BYTES 0 st'.

(** ** The whole operation, lines 94-171 *)

(** How a run ends: the function returns, or a [do ... while] is still
    running when its iterations are used up.  Both carry the state of the
    buffer at that moment, which the caller's array holds whether or not
    the call returns. *)
Inductive Outcome : Type :=
  | Finished (st : State)
  | OutOfFuel (st : State).

Definition stateOf (o : Outcome) : State :=
  match o with Finished st => st | OutOfFuel st => st end.

(** The outer [for] of line 106 with [n] start indices left; the length
    of a typed array is fixed, so [n] is
    [labelBytes.length - labelByteStartingIndex]. *)
Fixpoint scanFrom (fuel : nat) (n : nat) (labelByteStartingIndex : nat)
    (st : State) : Outcome :=
  match n with
  | O => Finished st
  | S n' =>
      match foundMatch fuel (bytes st) labelByteStartingIndex with
      | None => OutOfFuel st
      | Some true =>
          scanFrom fuel n' (S labelByteStartingIndex)
            (applyPatch labelByteStartingIndex st)
      | Some false => scanFrom fuel n' (S labelByteStartingIndex) st
      end
  end.

Definition patchLabelBytesIfNeeded (fuel : nat) (labelBytes : list Z)
    : Outcome :=
  scanFrom fuel (length labelBytes) 0 (mkState labelBytes []).

(** The bytes of the buffer after a run. *)
Definition patched (fuel : nat) (labelBytes : list Z) : list Z :=
  bytes (stateOf (patchLabelBytesIfNeeded fuel labelBytes)).

(** ** The matcher, declaratively *)

(** What a pattern matches, in the words of the data model: a pattern byte
    equal to the space is a wildcard-gap marker that matches one or more
    consecutive non-alphabetic bytes up to an alphabetic byte, every other
    pattern byte matches the equal buffer byte.  [Fuzzy B pattern pos e]:
    the pattern matches the bytes of [B] from index [pos] up to, not
    including, index [e]. *)
Inductive Fuzzy (B : list Z) : list Z -> nat -> nat -> Prop :=
  | Fuzzy_nil pos : Fuzzy B [] pos pos
  | Fuzzy_byte p pattern pos e :
      p <> CHAR_CODE_SPACE ->
      B !! pos = Some p ->
      Fuzzy B pattern (S pos) e ->
      Fuzzy B (p :: pattern) pos e
  | Fuzzy_gap pattern pos n e :
      (1 <= n)%nat ->
      (forall k, (k < n)%nat -> isAlphaChar (B !! (pos + k)%nat) = false) ->
      isAlphaChar (B !! (pos + n)%nat) = true ->
      Fuzzy B pattern (pos + n) e ->
      Fuzzy B (CHAR_CODE_SPACE :: pattern) pos e.

(** A word stands in the buffer at index [k]. *)
Definition wordAt (w : list Z) (B : list Z) (k : nat) : Prop :=
  forall j c, w !! j = Some c -> B !! (k + j)%nat = Some c.

(** A run of [n >= 1] non-alphabetic bytes stands in the buffer at index
    [k]. *)
Definition gapAt (B : list Z) (k n : nat) : Prop :=
  (1 <= n)%nat /\
  forall j, (j < n)%nat ->
    exists c, B !! (k + j)%nat = Some c /\ isAlphaChar (Some c) = false.

(** The phrase stands at index [i] with its two separators replaced by
    runs of [a] and of [b] non-alphabetic bytes, the word to replace
    ([token]) last. *)
Definition phraseAt (token : list Z) (B : list Z) (i a b : nat) : Prop :=
  wordAt (charCodes "Gulf") B i /\
  gapAt B (i + 4) a /\
  wordAt (charCodes "of") B (i + 4 + a) /\
  gapAt B (i + 6 + a) b /\
  wordAt token B (i + 6 + a + b).

(** A fuzzy match of "Gulf of Mexico" at start index [i]. *)
Definition FuzzyMatchAt (B : list Z) (i a b : nat) : Prop :=
  phraseAt (charCodes "Mexico") B i a b.

(** The same occurrence once patched. *)
Definition PatchedAt (B : list Z) (i a b : nat) : Prop :=
  phraseAt (charCodes "Sweden") B i a b.

(** No opening parenthesis of the buffer is followed by an alphabetic
    byte. *)
Definition noParenthetical (B : list Z) : Prop :=
  forall k, B !! k = Some CHAR_CODE_PARENTH ->
            isAlphaChar (B !! (k + 1)%nat) = false.

(** An opening parenthesis stands at index [k], an alphabetic byte right
    after it. *)
Definition parenthAt (B : list Z) (k : nat) : Prop :=
  B !! k = Some CHAR_CODE_PARENTH /\ isAlphaChar (B !! (k + 1)%nat) = true.

(** Index [k] lies in the parenthetical that starts at [p]: at or after
    [p], with no closing parenthesis from [p] up to, not including, [k]. *)
Definition inParenthetical (B : list Z) (p k : nat) : Prop :=
  (p <= k)%nat /\
  forall j, (p <= j < k)%nat -> B !! j <> Some CHAR_CODE_CLOSE.

(** The indices [i], ..., [i + n - 1], last first, as the stores of a loop
    record them. *)
Definition storesUp (i n : nat) : list Z :=
  rev (map Z.of_nat (seq i n)).


(** The matcher finds no match at any start index of the buffer, given
    [length] iterations for each gap loop. *)
Definition noMatchIn (B : list Z) : bool :=
  forallb (fun i => match foundMatch (length B) B i with
                    | Some true => false
                    | _ => true
                    end) (seq 0 (length B)).

(** Every parenthetical of the buffer is closed: a closing parenthesis
    follows each opening parenthesis that an alphabetic byte follows. *)
Definition closedParentheticals (B : list Z) : Prop :=
  forall q, parenthAt B q ->
    exists r, (q < r)%nat /\ B !! r = Some CHAR_CODE_CLOSE.

(** Index [k] lies in the token of the fuzzy match of [B] at [i]. *)
Definition inTokenOf (B : list Z) (i a b k : nat) : Prop :=
  FuzzyMatchAt B i a b /\ (i + 6 + a + b <= k < i + 12 + a + b)%nat.

(** Where a scan of a buffer [B] without parenthetical stands before start
    index [j]: the fuzzy matches of [B] that start below [j] are patched,
    the others are as they were, and no byte differs from [B] outside the
    tokens of the former. *)
Definition scannedBelow (B : list Z) (j : nat) (st : State) : Prop :=
  length (bytes st) = length B /\
  findParenthStart (bytes st) = -1 /\
  (forall i a b, FuzzyMatchAt B i a b ->
     ((j <= i)%nat -> FuzzyMatchAt (bytes st) i a b) /\
     ((i < j)%nat -> PatchedAt (bytes st) i a b)) /\
  (forall k, bytes st !! k = B !! k \/
     exists i a b, inTokenOf B i a b k /\ (i < j)%nat).

(** ** The JSON hook, lines 51-54 *)

(** A JavaScript string is its UTF-16 code units, a [list Z] here.
    [startsWith search s]: [search] stands at the head of [s]. *)
Fixpoint startsWith (search s : list Z) : bool :=
  match search, s with
  | [], _ => true
  | _ :: _, [] => false
  | x :: search', c :: s' => (x =? c) && startsWith search' s'
  end.

(** [s.replaceAll(search, replacement)] for a string [search] and a
    [replacement] without dollar sign, which stands for itself: the
    occurrences of [search] are taken from left to right, each search
    starting again right after the occurrence before, and each one found
    is replaced.  [replaceAllFrom] is the scan over a non-empty [search],
    with the code units of the current occurrence still to be passed
    over; an empty [search] matches before every code unit and at the
    end. *)
Fixpoint replaceAllFrom (search replacement : list Z) (skip : nat)
    (s : list Z) : list Z :=
  match s with
  | [] => []
  | c :: s' =>
      match skip with
      | S skip' => replaceAllFrom search replacement skip' s'
      | O =>
          if startsWith search s
          then replacement
                 ++ replaceAllFrom search replacement (length search - 1) s'
          else c :: replaceAllFrom search replacement 0 s'
      end
  end.

Definition replaceAll (search replacement s : list Z) : list Z :=
  match search with
  | [] => replacement ++ flat_map (fun c => c :: replacement) s
  | _ :: _ => replaceAllFrom search replacement 0 s
  end.

(** The text of line 52. *)
Definition rewrittenJson (a : list Z) : list Z :=
  replaceAll (charCodes "Gulf of Mexico") (charCodes "Gulf of Sweden")
    (replaceAll (charCodes " (Gulf of America)") [] a).

(** The function stored over the JSON parsing function, lines 51-54, for
    the original function it calls. *)
Definition jsonParsingHook {B R : Type}
    (originalJsonParsingFunction : list Z -> B -> R) (a : list Z) (b : B)
    : R :=
  let a := rewrittenJson a in
  originalJsonParsingFunction a b.

(** [search] stands somewhere in [s]. *)
Definition occursIn (search s : list Z) : Prop :=
  exists pre post, s = pre ++ search ++ post.

(** ** The label hook, lines 66-82 *)

(** What the hook sees of [data.labelGroupBytes]: a falsy value (the
    property may be missing), a truthy value that is no [Uint8Array], or
    a [Uint8Array] with its bytes. *)
Inductive Field : Type :=
  | FieldFalsy
  | FieldOther
  | FieldBytes (labelBytes : list Z).

(** The value [a[0](...args)] returns, when it is one with properties:
    its [labelGroupBytes] and all the rest of it. *)
Record Data (T : Type) : Type := mkData {
  labelGroupBytes : Field;
  others : T
}.

Arguments mkData {T}.
Arguments labelGroupBytes {T}.
Arguments others {T}.

(** How a call of [hookedFunction] ends: it returns [undefined], it
    returns [data], the read of [data.labelGroupBytes] throws because
    [data] is [undefined] or [null], or the patch does not return, the
    data being as the patch has left it so far. *)
Inductive HookResult (T : Type) : Type :=
  | ReturnsUndefined
  | Returns (data : Data T)
  | Throws
  | NeverReturns (data : Data T).

Arguments ReturnsUndefined {T}.
Arguments Returns {T}.
Arguments Throws {T}.
Arguments NeverReturns {T}.

(** [hookedFunction], lines 67-79, for the array [a] the hook was called
    with; [None] is an [undefined] or [null] result of [a[0]].  The patch
    works in place: the data returned is the one [a[0]] returned, with
    its bytes as the patch leaves them. *)
Definition hookedFunction {Args T : Type} (fuel : nat)
    (a : list (Args -> option (Data T))) (args : Args) : HookResult T :=
  match a with
  | [] => ReturnsUndefined
  | a0 :: _ =>
      match a0 args with
      | None => Throws
      | Some data =>
          match labelGroupBytes data with
          | FieldBytes labelBytes =>
              match patchLabelBytesIfNeeded fuel labelBytes with
              | Finished st =>
                  Returns (mkData (FieldBytes (bytes st)) (others data))
              | OutOfFuel st =>
                  NeverReturns (mkData (FieldBytes (bytes st)) (others data))
              end
          | _ => Returns data
          end
      end
  end.

(** ** The lookup of the functions, lines 30-32, and the script, lines
    38-82 *)

Definition TAB : string := String (ascii_of_nat 9) EmptyString.
Definition NL : string := String (ascii_of_nat 10) EmptyString.
Definition DQ : string := String (ascii_of_nat 34) EmptyString.

(** The two source texts the script looks for, lines 38 and 56. *)
Definition JSON_PARSING_SOURCE : string :=
  String.concat EmptyString
    ["function(a,b){const c=JSON.parse(a);if(Array.isArray(c))return new b(c);throw Error(";
     DQ; "U`"; DQ; "+a);}"]%string.

Definition LABEL_PROCESSING_SOURCE : string :=
  "(a,b)=>{if(a.length!==0)return b(a[0])}".

(** The source texts of the two functions the script stores, which their
    [toString()] returns: lines 51-54 and 66-82. *)
Definition JSON_HOOK_SOURCE : string :=
  (String.concat EmptyString
    ["function(a, b) {"; NL; TAB; TAB;
     "a = a.replaceAll(' (Gulf of America)', "; DQ; DQ;
     ").replaceAll('Gulf of Mexico', 'Gulf of Sweden')"; NL; TAB; TAB;
     "return originalJsonParsingFunction(a, b)"; NL; TAB; "}"])%string.

Definition LABEL_HOOK_SOURCE : string :=
  (String.concat EmptyString
    ["(a, b)=>{"; NL; TAB; TAB;
     "const hookedFunction = function (...args) {"; NL; TAB; TAB; TAB;
     "if (a.length == 0) {"; NL; TAB; TAB; TAB; TAB; "return"; NL;
     TAB; TAB; TAB; "}"; NL; NL; TAB; TAB; TAB;
     "const data = a[0](...args)"; NL; NL; TAB; TAB; TAB;
     "if (data.labelGroupBytes && data.labelGroupBytes instanceof Uint8Array) {";
     NL; TAB; TAB; TAB; TAB;
     "patchLabelBytesIfNeeded(data.labelGroupBytes)"; NL; TAB; TAB;
     TAB; "}"; NL; NL; TAB; TAB; TAB; "return data"; NL; TAB; TAB;
     "}"; NL; NL; TAB; TAB;
     "originalLabelProcessingFunction([hookedFunction], b)"; NL; TAB;
     "}"])%string.

(** What [toString] gives on a truthy value: it is missing or falsy, it
    returns a string, it returns something else, or the call throws. *)
Inductive ToStringResult : Type :=
  | ToStringMissing
  | ToStringReturns (s : string)
  | ToStringOther
  | ToStringThrows.

(** A value held by the object [_]: [undefined], another falsy value, a
    truthy value of the page (told from the others by a tag), or one of
    the two functions of the script around the value it has replaced. *)
Inductive Value : Type :=
  | Undefined
  | Falsy
  | Host (tag : nat) (ts : ToStringResult)
  | JsonHook (original : Value)
  | LabelHook (original : Value).

Definition truthy (v : Value) : bool :=
  match v with Undefined | Falsy => false | _ => true end.

Definition toStringOf (v : Value) : ToStringResult :=
  match v with
  | Undefined | Falsy => ToStringMissing
  | Host _ ts => ts
  | JsonHook _ => ToStringReturns JSON_HOOK_SOURCE
  | LabelHook _ => ToStringReturns LABEL_HOOK_SOURCE
  end.

(** The test of line 31 on one value,
    [v && v.toString && v.toString() === stringRepresentation];
    [None] when it throws. *)
Definition hasSource (stringRepresentation : string) (v : Value)
    : option bool :=
  if truthy v then
    match toStringOf v with
    | ToStringMissing => Some false
    | ToStringReturns s => Some (String.eqb s stringRepresentation)
    | ToStringOther => Some false
    | ToStringThrows => None
    end
  else Some false.

(** The object [_]: its own properties, all of them enumerable data
    properties, in the order [Object.keys] lists them. *)
Abbreviation Namespace := (list (string * Value)).

(** What [find] returns: a key, [undefined], or the exception of the
    test. *)
Inductive FindResult : Type :=
  | Found (key : string)
  | NotFound
  | FindThrows.

(** [findFunction], lines 30-32. *)
Fixpoint findFunction (ns : Namespace) (stringRepresentation : string)
    : FindResult :=
  match ns with
  | [] => NotFound
  | (key, v) :: ns' =>
      match hasSource stringRepresentation v with
      | None => FindThrows
      | Some true => Found key
      | Some false => findFunction ns' stringRepresentation
      end
  end.

(** [_[name]] for the name [findFunction] has returned: [undefined] reads
    and writes the property "undefined". *)
Definition propertyKey (r : FindResult) : string :=
  match r with Found key => key | _ => "undefined" end.

Fixpoint getProperty (ns : Namespace) (key : string) : Value :=
  match ns with
  | [] => Undefined
  | (k, v) :: ns' => if String.eqb k key then v else getProperty ns' key
  end.

(** [_[key] = v]: the property keeps its place when there is one, and
    comes last otherwise. *)
Fixpoint setProperty (ns : Namespace) (key : string) (v : Value)
    : Namespace :=
  match ns with
  | [] => [(key, v)]
  | (k, v') :: ns' =>
      if String.eqb k key then (k, v) :: ns'
      else (k, v') :: setProperty ns' key v
  end.

(** How the script ends: it has run to its end, or an exception has
    stopped it; both with [_] as it is then. *)
Inductive ScriptResult : Type :=
  | Installed (ns : Namespace)
  | Stopped (ns : Namespace).

Definition namespaceOf (r : ScriptResult) : Namespace :=
  match r with Installed ns => ns | Stopped ns => ns end.

(** Lines 38-82: the two lookups, each followed by the copy of the
    original and the store of the hook. *)
Definition script (ns : Namespace) : ScriptResult :=
  match findFunction ns JSON_PARSING_SOURCE with
  | FindThrows => Stopped ns
  | jsonParsingFunctionName =>
      let originalJsonParsingFunction :=
        getProperty ns (propertyKey jsonParsingFunctionName) in
      let ns1 :=
        setProperty ns (propertyKey jsonParsingFunctionName)
          (JsonHook originalJsonParsingFunction) in
      match findFunction ns1 LABEL_PROCESSING_SOURCE with
      | FindThrows => Stopped ns1
      | labelProcessingFunctionName =>
          let originalLabelProcessingFunction :=
            getProperty ns1 (propertyKey labelProcessingFunctionName) in
          Installed
            (setProperty ns1 (propertyKey labelProcessingFunctionName)
               (LabelHook originalLabelProcessingFunction))
      end
  end.

(** ** Bytes and stores *)

Lemma isAlphaChar_Some c :
  isAlphaChar (Some c) = true <-> (64 < c < 91 \/ 96 < c < 123).
Proof.
  unfold isAlphaChar, js_gt, js_lt.
  rewrite orb_true_iff, !andb_true_iff, !Z.ltb_lt. tauto.
Qed.

Lemma isAlphaChar_lookup (B : list Z) k :
  isAlphaChar (B !! k) = true ->
  exists c, B !! k = Some c /\ (64 < c < 91 \/ 96 < c < 123).
Proof.
  destruct (B !! k) as [c|] eqn:E; [|discriminate].
  intros H. exists c. split; [reflexivity|]. now apply isAlphaChar_Some.
Qed.

Lemma js_eq_true v n : js_eq v n = true <-> v = Some n.
Proof.
  destruct v as [c|]; simpl.
  - rewrite Z.eqb_eq. split; congruence.
  - split; discriminate.
Qed.

Lemma js_eq_false v n : js_eq v n = false <-> v <> Some n.
Proof.
  rewrite <- js_eq_true. destruct (js_eq v n); split; congruence.
Qed.

Lemma bytes_store idx v st :
  bytes (store idx v st)
  = if (0 <=? idx) && (idx <? Z.of_nat (length (bytes st)))
    then <[Z.to_nat idx := v]> (bytes st) else bytes st.
Proof. reflexivity. Qed.

Lemma length_store idx v st :
  length (bytes (store idx v st)) = length (bytes st).
Proof.
  rewrite bytes_store. destruct (_ && _); [apply length_insert|reflexivity].
Qed.

Lemma writes_store idx v st : writes (store idx v st) = idx :: writes st.
Proof. reflexivity. Qed.

(** A store within the bounds is read back; every other index keeps its
    byte. *)
Lemma lookup_store_eq (k : nat) v st :
  (k < length (bytes st))%nat ->
  bytes (store (Z.of_nat k) v st) !! k = Some v.
Proof.
  intros Hk. rewrite bytes_store.
  replace ((0 <=? Z.of_nat k) && (Z.of_nat k <? Z.of_nat (length (bytes st))))
    with true.
  - rewrite Nat2Z.id. now apply list_lookup_insert_eq.
  - symmetry. apply andb_true_iff. split; [apply Z.leb_le|apply Z.ltb_lt]; lia.
Qed.

Lemma lookup_store_ne idx (k : nat) v st :
  idx <> Z.of_nat k ->
  bytes (store idx v st) !! k = bytes st !! k.
Proof.
  intros Hne. rewrite bytes_store.
  destruct ((0 <=? idx) && (idx <? Z.of_nat (length (bytes st)))) eqn:E;
    [|reflexivity].
  apply andb_true_iff in E as [E1 E2]. apply Z.leb_le in E1.
  apply list_lookup_insert_ne. lia.
Qed.

(** ** The gap loop *)

(** The loop stops at the first alphabetic byte after the current one. *)
Lemma skipGap_stops n : forall fuel B i off,
  (1 <= n <= fuel)%nat ->
  (forall k, (1 <= k < n)%nat ->
     isAlphaChar (B !! (i + (off + k))%nat) = false) ->
  isAlphaChar (B !! (i + (off + n))%nat) = true ->
  skipGap fuel B i off = Some (off + n)%nat.
Proof.
  induction n as [|n IH]; intros fuel B i off Hn Hgap Hstop; [lia|].
  destruct fuel as [|fuel]; [lia|]. simpl.
  destruct (Nat.eq_dec n 0%nat) as [->|Hn0].
  - replace (off + 1)%nat with (S off) in Hstop by lia.
    rewrite Hstop. simpl. f_equal. lia.
  - replace (S off) with (off + 1)%nat at 1 by lia.
    rewrite (Hgap 1%nat) by lia. simpl.
    rewrite (IH fuel B i (S off)).
    + f_equal. lia.
    + lia.
    + intros k Hk. replace (S off + k)%nat with (off + S k)%nat by lia.
      apply Hgap. lia.
    + replace (S off + n)%nat with (off + S n)%nat by lia. exact Hstop.
Qed.

(** Where the loop stops there is an alphabetic byte, the first one after
    the byte it started on. *)
Lemma skipGap_Some fuel : forall B i off off',
  skipGap fuel B i off = Some off' ->
  (off < off')%nat /\ (off' - off <= fuel)%nat /\
  (forall k, (off < k < off')%nat -> isAlphaChar (B !! (i + k)%nat) = false) /\
  isAlphaChar (B !! (i + off')%nat) = true.
Proof.
  induction fuel as [|fuel IH]; intros B i off off' H; [discriminate|].
  simpl in H.
  destruct (isAlphaChar (B !! (i + S off)%nat)) eqn:E; simpl in H.
  - injection H as <-. repeat split; [lia|lia| |exact E].
    intros k Hk. lia.
  - apply IH in H as (H1 & H2 & H3 & H4). repeat split; [lia|lia| |exact H4].
    intros k Hk. destruct (Nat.eq_dec k (S off)) as [->|Hne]; [exact E|].
    apply H3. lia.
Qed.

(** With no alphabetic byte after the current one the loop never stops:
    it reads past the end of the buffer, where every read is
    [undefined]. *)
Lemma skipGap_diverges fuel : forall B i off,
  (forall k, (i + off < k)%nat -> isAlphaChar (B !! k) = false) ->
  skipGap fuel B i off = None.
Proof.
  induction fuel as [|fuel IH]; intros B i off H; [reflexivity|].
  simpl. rewrite H by lia. simpl. apply IH. intros k Hk. apply H. lia.
Qed.

(** ** The matcher against its declarative reading *)

Lemma matchPattern_cons fuel B i p pattern off :
  matchPattern fuel B i (p :: pattern) off =
  if (length B <=? i + off)%nat then Some false
  else if (p =? CHAR_CODE_SPACE) && negb (isAlphaChar (B !! (i + off)%nat))
  then match skipGap fuel B i off with
       | None => None
       | Some off' => matchPattern fuel B i pattern off'
       end
  else if js_eq (B !! (i + off)%nat) p
  then matchPattern fuel B i pattern (S off)
  else Some false.
Proof. reflexivity. Qed.

(** One step of the matcher on a byte that is not the marker. *)
Lemma matchPattern_byte fuel B i p pattern off :
  p <> CHAR_CODE_SPACE ->
  B !! (i + off)%nat = Some p ->
  matchPattern fuel B i (p :: pattern) off
  = matchPattern fuel B i pattern (S off).
Proof.
  intros Hp Hb. rewrite matchPattern_cons.
  apply lookup_lt_Some in Hb as Hlt.
  replace (length B <=? i + off)%nat with false
    by (symmetry; apply Nat.leb_gt; lia).
  replace (p =? CHAR_CODE_SPACE) with false
    by (symmetry; now apply Z.eqb_neq).
  rewrite Hb. simpl. now rewrite Z.eqb_refl.
Qed.

(** A byte other than the expected one ends the candidate. *)
Lemma matchPattern_mismatch fuel B i p pattern off :
  p <> CHAR_CODE_SPACE ->
  B !! (i + off)%nat <> Some p ->
  matchPattern fuel B i (p :: pattern) off = Some false.
Proof.
  intros Hp Hb. rewrite matchPattern_cons.
  destruct (length B <=? i + off)%nat; [reflexivity|].
  replace (p =? CHAR_CODE_SPACE) with false
    by (symmetry; now apply Z.eqb_neq).
  apply js_eq_false in Hb. rewrite Hb. reflexivity.
Qed.

(** An alphabetic byte where the marker stands ends the candidate: the
    marker needs one non-alphabetic byte at least. *)
Lemma matchPattern_marker_alpha fuel B i pattern off :
  isAlphaChar (B !! (i + off)%nat) = true ->
  matchPattern fuel B i (CHAR_CODE_SPACE :: pattern) off = Some false.
Proof.
  intros Ha. rewrite matchPattern_cons.
  destruct (length B <=? i + off)%nat; [reflexivity|].
  rewrite Ha, andb_false_r.
  destruct (js_eq (B !! (i + off)%nat) CHAR_CODE_SPACE) eqn:E; [|reflexivity].
  apply js_eq_true in E. rewrite E in Ha. discriminate.
Qed.

(** One step of the matcher on the marker, over a non-alphabetic byte. *)
Lemma matchPattern_marker fuel B i pattern off c :
  B !! (i + off)%nat = Some c ->
  isAlphaChar (Some c) = false ->
  matchPattern fuel B i (CHAR_CODE_SPACE :: pattern) off
  = match skipGap fuel B i off with
    | None => None
    | Some off' => matchPattern fuel B i pattern off'
    end.
Proof.
  intros Hb Ha. rewrite matchPattern_cons.
  apply lookup_lt_Some in Hb as Hlt.
  replace (length B <=? i + off)%nat with false
    by (symmetry; apply Nat.leb_gt; lia).
  rewrite Hb, Ha, Z.eqb_refl. reflexivity.
Qed.

Lemma matchPattern_sound fuel B i : forall pattern off,
  matchPattern fuel B i pattern off = Some true ->
  exists e, Fuzzy B pattern (i + off) e.
Proof.
  induction pattern as [|p pattern IH]; intros off H.
  - exists (i + off)%nat. constructor.
  - rewrite matchPattern_cons in H.
    destruct (length B <=? i + off)%nat eqn:Hlen; [discriminate|].
    destruct ((p =? CHAR_CODE_SPACE) && negb (isAlphaChar (B !! (i + off)%nat)))
      eqn:Hgap.
    + apply andb_true_iff in Hgap as [Hp Ha].
      apply Z.eqb_eq in Hp. subst p. apply negb_true_iff in Ha.
      destruct (skipGap fuel B i off) as [off'|] eqn:Hs; [|discriminate].
      apply skipGap_Some in Hs as (H1 & _ & H3 & H4).
      apply IH in H as [e He]. exists e.
      apply (Fuzzy_gap B pattern (i + off) (off' - off) e).
      * lia.
      * intros k Hk. destruct k as [|k].
        -- now rewrite Nat.add_0_r.
        -- replace (i + off + S k)%nat with (i + (off + S k))%nat by lia.
           apply H3. lia.
      * replace (i + off + (off' - off))%nat with (i + off')%nat by lia.
        exact H4.
      * replace (i + off + (off' - off))%nat with (i + off')%nat by lia.
        exact He.
    + destruct (js_eq (B !! (i + off)%nat) p) eqn:Heq; [|discriminate].
      apply js_eq_true in Heq. apply IH in H as [e He]. exists e.
      apply Fuzzy_byte.
      * intros ->. rewrite Z.eqb_refl in Hgap. simpl in Hgap.
        apply negb_false_iff in Hgap. rewrite Heq in Hgap. discriminate.
      * exact Heq.
      * replace (S (i + off)) with (i + S off)%nat by lia. exact He.
Qed.

Lemma matchPattern_complete fuel B i : forall pattern off e,
  (length B <= fuel)%nat ->
  Fuzzy B pattern (i + off) e ->
  matchPattern fuel B i pattern off = Some true.
Proof.
  intros pattern off e Hfuel H. remember (i + off)%nat as pos eqn:Hpos.
  revert off Hpos.
  induction H as [pos|p pattern pos e Hp Hb _ IH|pattern pos n e Hn Hg Ha _ IH];
    intros off ->.
  - reflexivity.
  - rewrite matchPattern_byte by assumption. apply IH. lia.
  - apply isAlphaChar_lookup in Ha as Hc. destruct Hc as (c & Hc & _).
    apply lookup_lt_Some in Hc.
    specialize (Hg 0%nat Hn) as Hg0. rewrite Nat.add_0_r in Hg0.
    destruct (B !! (i + off)%nat) as [c0|] eqn:Hc0.
    2:{ apply lookup_ge_None in Hc0. lia. }
    rewrite (matchPattern_marker fuel B i pattern off c0) by assumption.
    rewrite (skipGap_stops n).
    + apply IH. lia.
    + lia.
    + intros k Hk. replace (i + (off + k))%nat with (i + off + k)%nat by lia.
      apply Hg. lia.
    + replace (i + (off + n))%nat with (i + off + n)%nat by lia. exact Ha.
Qed.

(** ** Words and gaps by index *)

Lemma wordAt_nil B k : wordAt [] B k.
Proof. intros j c H. destruct j; discriminate. Qed.

Lemma wordAt_cons c w B k :
  wordAt (c :: w) B k <-> B !! k = Some c /\ wordAt w B (S k).
Proof.
  split.
  - intros H. split.
    + specialize (H 0%nat c eq_refl). now rewrite Nat.add_0_r in H.
    + intros j d Hj. replace (S k + j)%nat with (k + S j)%nat by lia.
      now apply H.
  - intros [H0 Hw] [|j] d Hj.
    + simpl in Hj. injection Hj as <-. now rewrite Nat.add_0_r.
    + replace (k + S j)%nat with (S k + j)%nat by lia. now apply Hw.
Qed.

(** A word stands in [pre ++ w ++ post] right after [pre]. *)
Lemma wordAt_app pre w post : wordAt w (pre ++ w ++ post) (length pre).
Proof.
  intros j c Hj. rewrite lookup_app_r by lia.
  replace (length pre + j - length pre)%nat with j by lia.
  now apply lookup_app_l_Some.
Qed.



Lemma gapAt_alpha B k n j :
  gapAt B k n -> (j < n)%nat -> isAlphaChar (B !! (k + j)%nat) = false.
Proof. intros [_ H] Hj. destruct (H j Hj) as (c & -> & Ha). exact Ha. Qed.

(** ** The matcher on "Gulf of Mexico" *)

Lemma SEARCH_PATTERN_BYTES_eq :
  SEARCH_PATTERN_BYTES
  = [71; 117; 108; 102; 32; 111; 102; 32; 77; 101; 120; 105; 99; 111].
Proof. reflexivity. Qed.

Ltac fuzzy_byte H :=
  let Hp := fresh "Hp" in
  let Hb := fresh "Hb" in
  let Hr := fresh "Hr" in
  inversion H as [|? ? ? ? Hp Hb Hr|]; subst; clear H.

Ltac fuzzy_gap H n :=
  let Hp := fresh "Hp" in
  let Hn := fresh "Hn" in
  let Hg := fresh "Hg" in
  let Ha := fresh "Ha" in
  let Hr := fresh "Hr" in
  inversion H as [|? ? ? ? Hp|? ? n ? Hn Hg Ha Hr];
  [exfalso; now apply Hp|]; subst; clear H.

Lemma Fuzzy_gap_gapAt B pos n :
  (1 <= n)%nat ->
  (forall k, (k < n)%nat -> isAlphaChar (B !! (pos + k)%nat) = false) ->
  isAlphaChar (B !! (pos + n)%nat) = true ->
  gapAt B pos n.
Proof.
  intros Hn Hg Ha. split; [exact Hn|]. intros j Hj.
  apply isAlphaChar_lookup in Ha as (c & Hc & _). apply lookup_lt_Some in Hc.
  destruct (lookup_lt_is_Some_2 B (pos + j)%nat) as [d Hd]; [lia|].
  exists d. split; [exact Hd|]. rewrite <- Hd. now apply Hg.
Qed.

(** A lookup or a gap among the hypotheses, up to arithmetic on the
    index. *)
Ltac lookup_hyp :=
  match goal with
  | H : ?B !! ?x = Some ?c |- ?B !! ?y = Some _ =>
      replace y with x by lia; exact H
  end.

Ltac gap_hyp :=
  apply Fuzzy_gap_gapAt;
  [ assumption
  | let k := fresh "k" in
    let Hk := fresh "Hk" in
    intros k Hk;
    match goal with
    | H : forall j, (j < _)%nat -> isAlphaChar (?B !! (?x + j)%nat) = false
      |- isAlphaChar (?B !! (?y + k)%nat) = false =>
        replace (y + k)%nat with (x + k)%nat by lia; now apply H
    end
  | match goal with
    | H : isAlphaChar (?B !! ?x) = true |- isAlphaChar (?B !! ?y) = true =>
        replace y with x by lia; exact H
    end ].

Ltac word_hyp :=
  simpl charCodes; repeat (apply wordAt_cons; split);
  [ lookup_hyp .. | apply wordAt_nil ].

(** What the pattern of the source matches: the phrase with a gap for each
    of its two spaces. *)
Lemma Fuzzy_phrase B i e :
  Fuzzy B SEARCH_PATTERN_BYTES i e ->
  exists a b, FuzzyMatchAt B i a b /\ e = (i + 12 + a + b)%nat.
Proof.
  rewrite SEARCH_PATTERN_BYTES_eq. intros H.
  fuzzy_byte H. fuzzy_byte Hr. fuzzy_byte Hr0. fuzzy_byte Hr.
  fuzzy_gap Hr0 a. fuzzy_byte Hr. fuzzy_byte Hr0.
  fuzzy_gap Hr b.
  fuzzy_byte Hr0. fuzzy_byte Hr. fuzzy_byte Hr0. fuzzy_byte Hr.
  fuzzy_byte Hr0. fuzzy_byte Hr.
  inversion Hr0; subst.
  exists a, b. split; [|lia].
  unfold FuzzyMatchAt, phraseAt.
  split; [word_hyp|]. split; [gap_hyp|]. split; [word_hyp|].
  split; [gap_hyp|word_hyp].
Qed.

(** A byte of a word that stands in the buffer, up to arithmetic on the
    index. *)
Ltac word_at :=
  match goal with
  | H : wordAt ?w ?B ?k |- ?B !! ?y = Some _ =>
      first
        [ replace y with (k + 0)%nat by lia; apply (H 0%nat); reflexivity
        | replace y with (k + 1)%nat by lia; apply (H 1%nat); reflexivity
        | replace y with (k + 2)%nat by lia; apply (H 2%nat); reflexivity
        | replace y with (k + 3)%nat by lia; apply (H 3%nat); reflexivity
        | replace y with (k + 4)%nat by lia; apply (H 4%nat); reflexivity
        | replace y with (k + 5)%nat by lia; apply (H 5%nat); reflexivity ]
  end.

Ltac fuzzy_step :=
  apply Fuzzy_byte; [ intros [=] | word_at | ].

Ltac fuzzy_gap_step pos n :=
  apply (Fuzzy_gap _ _ pos n);
  [ match goal with H : gapAt _ _ n |- _ => destruct H; lia end
  | let k := fresh "k" in
    let Hk := fresh "Hk" in
    intros k Hk;
    match goal with
    | H : gapAt ?B ?x n |- isAlphaChar (?B !! ?y) = false =>
        replace y with (x + k)%nat by lia; now apply (gapAt_alpha B x n)
    end
  | match goal with
    | |- isAlphaChar (?B !! ?y) = true =>
        let E := fresh "E" in
        eassert (B !! y = Some _) as E by word_at; rewrite E; reflexivity
    end
  | ].

Lemma phrase_Fuzzy B i a b :
  FuzzyMatchAt B i a b -> Fuzzy B SEARCH_PATTERN_BYTES i (i + 12 + a + b).
Proof.
  rewrite SEARCH_PATTERN_BYTES_eq. intros (Hw1 & Hg1 & Hw2 & Hg2 & Hw3).
  do 4 fuzzy_step.
  fuzzy_gap_step (S (S (S (S i)))) a.
  do 2 fuzzy_step.
  fuzzy_gap_step (S (S (S (S (S (S i))) + a))) b.
  do 6 fuzzy_step.
  replace (i + 12 + a + b)%nat
    with (S (S (S (S (S (S (S (S (S (S (S (S i))) + a)) + b))))))) by lia.
  constructor.
Qed.

(** The matcher of the source declares a match at [i] exactly when the
    phrase stands there with a gap for each space. *)
Lemma foundMatch_sound fuel B i :
  foundMatch fuel B i = Some true -> exists a b, FuzzyMatchAt B i a b.
Proof.
  unfold foundMatch. intros H. apply matchPattern_sound in H as [e He].
  rewrite Nat.add_0_r in He.
  apply Fuzzy_phrase in He as (a & b & H & _). now exists a, b.
Qed.

Lemma foundMatch_complete fuel B i a b :
  (length B <= fuel)%nat ->
  FuzzyMatchAt B i a b -> foundMatch fuel B i = Some true.
Proof.
  intros Hfuel H. unfold foundMatch.
  apply (matchPattern_complete fuel B i _ 0%nat (i + 12 + a + b)%nat Hfuel).
  rewrite Nat.add_0_r. now apply phrase_Fuzzy.
Qed.

(** ** [indexOf] *)

Lemma indexOfFrom_spec x : forall l k,
  (indexOfFrom l x k = -1 /\ forall j, l !! j <> Some x) \/
  (exists j, indexOfFrom l x k = Z.of_nat (k + j) /\ l !! j = Some x /\
             forall j', (j' < j)%nat -> l !! j' <> Some x).
Proof.
  induction l as [|y l IH]; intros k; simpl.
  - left. split; [reflexivity|]. intros j. now rewrite lookup_nil.
  - destruct (Z.eqb_spec y x) as [->|Hne].
    + right. exists 0%nat. rewrite Nat.add_0_r. repeat split. intros j' Hj'. lia.
    + destruct (IH (S k)) as [[H1 H2]|(j & H1 & H2 & H3)].
      * left. split; [exact H1|]. intros [|j]; simpl; [congruence|apply H2].
      * right. exists (S j). rewrite H1. repeat split.
        -- f_equal. lia.
        -- exact H2.
        -- intros [|j'] Hj'; simpl; [congruence|]. apply H3. lia.
Qed.

(** [indexOf] returns the first index at or after [fromIndex] that holds
    the byte, wherever in the buffer that is, and [-1] when there is
    none. *)
Lemma indexOf_spec B x fromIndex :
  (indexOf B x fromIndex = -1 /\
   forall k, (fromIndex <= k)%nat -> B !! k <> Some x) \/
  (exists m, indexOf B x fromIndex = Z.of_nat m /\ (fromIndex <= m)%nat /\
             B !! m = Some x /\
             forall k, (fromIndex <= k < m)%nat -> B !! k <> Some x).
Proof.
  unfold indexOf.
  destruct (indexOfFrom_spec x (drop fromIndex B) fromIndex)
    as [[H1 H2]|(j & H1 & H2 & H3)].
  - left. split; [exact H1|]. intros k Hk.
    specialize (H2 (k - fromIndex)%nat). rewrite lookup_drop in H2.
    now replace (fromIndex + (k - fromIndex))%nat with k in H2 by lia.
  - right. exists (fromIndex + j)%nat. rewrite lookup_drop in H2.
    repeat split; [exact H1|lia|exact H2|].
    intros k Hk. specialize (H3 (k - fromIndex)%nat).
    rewrite lookup_drop in H3.
    replace (fromIndex + (k - fromIndex))%nat with k in H3 by lia.
    apply H3. lia.
Qed.

Lemma indexOf_first B x fromIndex m :
  (fromIndex <= m)%nat ->
  B !! m = Some x ->
  (forall k, (fromIndex <= k < m)%nat -> B !! k <> Some x) ->
  indexOf B x fromIndex = Z.of_nat m.
Proof.
  intros Hle Hm Hfirst.
  destruct (indexOf_spec B x fromIndex) as [[_ H]|(m' & -> & H1 & H2 & H3)].
  - exfalso. now apply (H m).
  - f_equal. destruct (Nat.lt_trichotomy m m') as [Hlt|[->|Hgt]].
    + exfalso. apply (H3 m); [lia|exact Hm].
    + reflexivity.
    + exfalso. apply (Hfirst m'); [lia|exact H2].
Qed.

(** ** The search for the parenthetical *)

Lemma findParenthFrom_spec B : forall n i,
  (findParenthFrom n B i = -1 /\
   forall k, (i <= k < i + n)%nat -> ~ parenthAt B k) \/
  (exists p, findParenthFrom n B i = Z.of_nat p /\ (i <= p < i + n)%nat /\
             parenthAt B p /\
             forall k, (i <= k < p)%nat -> ~ parenthAt B k).
Proof.
  induction n as [|n IH]; intros i; simpl.
  - left. split; [reflexivity|]. intros k Hk. lia.
  - destruct (js_eq (B !! i) CHAR_CODE_PARENTH
              && isAlphaChar (B !! (i + 1)%nat)) eqn:E.
    + apply andb_true_iff in E as [E1 E2]. apply js_eq_true in E1.
      right. exists i. repeat split; [lia|lia|exact E1|exact E2|].
      intros k Hk. lia.
    + assert (~ parenthAt B i) as Hi.
      { intros [H1 H2]. apply js_eq_true in H1. rewrite H1, H2 in E.
        discriminate. }
      destruct (IH (S i)) as [[H1 H2]|(p & H1 & H2 & H3 & H4)].
      * left. split; [exact H1|]. intros k Hk.
        destruct (Nat.eq_dec k i) as [->|Hne]; [exact Hi|]. apply H2. lia.
      * right. exists p. repeat split; [exact H1|lia|lia|apply H3|apply H3|].
        intros k Hk.
        destruct (Nat.eq_dec k i) as [->|Hne]; [exact Hi|]. apply H4. lia.
Qed.

Lemma parenthAt_lt B k : parenthAt B k -> (k < length B)%nat.
Proof. intros [H _]. now apply lookup_lt_Some in H. Qed.

(** The search starts at index 0 whatever the start index of the match:
    it returns the first opening parenthesis of the whole buffer that an
    alphabetic byte follows, and [-1] when the buffer has none. *)
Lemma findParenthStart_spec B :
  (findParenthStart B = -1 /\ forall k, ~ parenthAt B k) \/
  (exists p, findParenthStart B = Z.of_nat p /\ (p < length B)%nat /\
             parenthAt B p /\ forall k, (k < p)%nat -> ~ parenthAt B k).
Proof.
  unfold findParenthStart.
  destruct (findParenthFrom_spec B (length B) 0)
    as [[H1 H2]|(p & H1 & H2 & H3 & H4)].
  - left. split; [exact H1|]. intros k Hk.
    apply (H2 k); [|exact Hk]. apply parenthAt_lt in Hk. lia.
  - right. exists p. repeat split; [exact H1|lia|apply H3|apply H3|].
    intros k Hk. apply H4. lia.
Qed.

Lemma noParenthetical_iff B :
  noParenthetical B <-> forall k, ~ parenthAt B k.
Proof.
  unfold noParenthetical, parenthAt. split.
  - intros H k [H1 H2]. rewrite (H k H1) in H2. discriminate.
  - intros H k H1. destruct (isAlphaChar (B !! (k + 1)%nat)) eqn:E;
      [|reflexivity].
    exfalso. now apply (H k).
Qed.

Lemma findParenthStart_none B :
  noParenthetical B -> findParenthStart B = -1.
Proof.
  rewrite noParenthetical_iff. intros H.
  destruct (findParenthStart_spec B) as [[H1 _]|(p & _ & _ & H3 & _)];
    [exact H1|].
  exfalso. now apply (H p).
Qed.

(** ** The erasure *)

Lemma storesUp_S i n : storesUp i (S n) = storesUp (S i) n ++ [Z.of_nat i].
Proof. reflexivity. Qed.

Lemma storesUp_bounds i n idx :
  idx ∈ storesUp i n -> Z.of_nat i <= idx < Z.of_nat (i + n).
Proof.
  unfold storesUp. rewrite list_elem_of_In, <- in_rev, in_map_iff.
  intros (k & <- & Hk). apply in_seq in Hk. lia.
Qed.

(** The [while] loop of the erasure: where it stops, what it has
    overwritten, what it has left, and which stores it has issued. *)
Lemma eraseLoop_spec : forall n i st st' i',
  eraseLoop n i st = (st', i') ->
  length (bytes st') = length (bytes st) /\
  (i <= i')%nat /\
  (forall k, (i <= k < i')%nat ->
     (k < length (bytes st))%nat /\
     bytes st !! k <> Some CHAR_CODE_CLOSE /\
     bytes st' !! k = Some CHAR_CODE_SPACE) /\
  (forall k, (k < i \/ i' <= k)%nat -> bytes st' !! k = bytes st !! k) /\
  writes st' = storesUp i (i' - i) ++ writes st /\
  ((length (bytes st) - i <= n)%nat ->
   (length (bytes st) <= i')%nat \/ bytes st !! i' = Some CHAR_CODE_CLOSE).
Proof.
  induction n as [|n IH]; intros i st st' i' H.
  - simpl in H. injection H as <- <-.
    rewrite Nat.sub_diag. repeat split; try reflexivity; try lia.
  - simpl in H.
    destruct ((i <? length (bytes st))%nat
              && negb (js_eq (bytes st !! i) CHAR_CODE_CLOSE)) eqn:E.
    + apply andb_true_iff in E as [E1 E2]. apply Nat.ltb_lt in E1.
      apply negb_true_iff, js_eq_false in E2.
      apply IH in H as (H1 & H2 & H3 & H4 & H5 & H6).
      rewrite length_store in *.
      split; [exact H1|]. split; [lia|]. split; [|split; [|split]].
      * intros k Hk. destruct (Nat.eq_dec k i) as [->|Hne].
        -- split; [exact E1|]. split; [exact E2|].
           rewrite H4 by lia. now apply lookup_store_eq.
        -- destruct (H3 k) as (K1 & K2 & K3); [lia|].
           split; [exact K1|]. split; [|exact K3].
           rewrite lookup_store_ne in K2 by lia. exact K2.
      * intros k Hk. rewrite H4 by lia. apply lookup_store_ne. lia.
      * rewrite H5, writes_store.
        replace (i' - i)%nat with (S (i' - S i)) by lia.
        rewrite storesUp_S, <- app_assoc. reflexivity.
      * intros Hn. destruct H6 as [H6|H6]; [lia|now left|].
        right. rewrite lookup_store_ne in H6 by lia. exact H6.
    + injection H as <- <-. rewrite Nat.sub_diag.
      repeat split; try reflexivity; try lia.
      intros _. apply andb_false_iff in E as [E|E].
      * apply Nat.ltb_ge in E. now left.
      * apply negb_false_iff, js_eq_true in E. now right.
Qed.

(** The erasure from a parenthetical that starts at [p]: every index of
    the parenthetical holds a space afterwards, every other index its old
    byte, the length is the same, and every store is inside the
    buffer. *)
Lemma eraseParenth_spec (p : nat) st :
  (p < length (bytes st))%nat ->
  let st' := eraseParenth (Z.of_nat p) st in
  length (bytes st') = length (bytes st) /\
  (forall k, (k < length (bytes st))%nat -> inParenthetical (bytes st) p k ->
     bytes st' !! k = Some CHAR_CODE_SPACE) /\
  (forall k, ~ inParenthetical (bytes st) p k ->
     bytes st' !! k = bytes st !! k) /\
  exists ws, writes st' = ws ++ writes st /\
    Forall (fun idx => Z.of_nat p <= idx < Z.of_nat (length (bytes st))) ws.
Proof.
  intros Hp. unfold eraseParenth.
  replace (Z.of_nat p >? -1) with true by (symmetry; apply Z.gtb_lt; lia).
  rewrite Nat2Z.id.
  destruct (eraseLoop (length (bytes st) - p) p st) as [st1 i] eqn:E.
  apply eraseLoop_spec in E as (H1 & H2 & H3 & H4 & H5 & H6).
  specialize (H6 (Nat.le_refl _)).
  assert (i <= length (bytes st))%nat as Hi.
  { destruct (Nat.le_gt_cases i (length (bytes st))) as [?|Hgt]; [assumption|].
    destruct (H3 (length (bytes st))); lia. }
  destruct (i <? length (bytes st1))%nat eqn:Ei.
  - apply Nat.ltb_lt in Ei. rewrite H1 in Ei.
    destruct H6 as [H6|H6]; [lia|].
    cbv zeta. rewrite length_store. split; [exact H1|]. split; [|split].
    + intros k Hk [Hpk Hno].
      destruct (Nat.lt_trichotomy k i) as [Hlt|[->|Hgt]].
      * rewrite lookup_store_ne by lia. apply H3. lia.
      * apply lookup_store_eq. lia.
      * exfalso. apply (Hno i); [lia|exact H6].
    + intros k Hk.
      assert (k < p \/ i < k)%nat as Hout.
      { destruct (Nat.lt_ge_cases k p) as [?|Hge]; [now left|]. right.
        destruct (Nat.lt_ge_cases i k) as [?|Hle]; [assumption|].
        exfalso. apply Hk. split; [exact Hge|].
        intros j Hj. apply H3. lia. }
      rewrite lookup_store_ne by lia. apply H4. lia.
    + exists (Z.of_nat i :: storesUp p (i - p)). split.
      * rewrite writes_store, H5. reflexivity.
      * constructor; [lia|]. apply Forall_forall. intros idx Hidx.
        apply storesUp_bounds in Hidx. lia.
  - apply Nat.ltb_ge in Ei. rewrite H1 in Ei.
    cbv zeta. split; [exact H1|]. split; [|split].
    + intros k Hk [Hpk Hno]. apply H3. lia.
    + intros k Hk. apply H4.
      destruct (Nat.lt_ge_cases k p) as [?|Hge]; [now left|]. right.
      destruct (Nat.le_gt_cases i k) as [?|Hlt]; [assumption|].
      exfalso. apply Hk. split; [exact Hge|].
      intros j Hj. apply H3. lia.
    + exists (storesUp p (i - p)). split; [exact H5|].
      apply Forall_forall. intros idx Hidx.
      apply storesUp_bounds in Hidx. lia.
Qed.

Lemma eraseParenth_none st : eraseParenth (-1) st = st.
Proof. reflexivity. Qed.

(** ** The blind copy of the replacement *)

Lemma replaceLoop_length m : forall rest i st,
  length (bytes (replaceLoop m rest i st)) = length (bytes st).
Proof.
  induction rest as [|b rest IH]; intros i st; simpl; [reflexivity|].
  rewrite IH. apply length_store.
Qed.

(** The loop stores [rest] at the indices [m + i], [m + i + 1], ...;
    inside the buffer each byte lands where it is stored. *)
Lemma replaceLoop_spec (m : nat) : forall rest i st,
  (m + i + length rest <= length (bytes st))%nat ->
  let st' := replaceLoop (Z.of_nat m) rest i st in
  (forall j c, rest !! j = Some c ->
     bytes st' !! (m + i + j)%nat = Some c) /\
  (forall k, (k < m + i \/ m + i + length rest <= k)%nat ->
     bytes st' !! k = bytes st !! k) /\
  writes st' = storesUp (m + i) (length rest) ++ writes st.
Proof.
  induction rest as [|b rest IH]; intros i st Hlen; simpl.
  - repeat split. intros j c Hj. now rewrite lookup_nil in Hj.
  - simpl in Hlen.
    destruct (IH (S i) (store (Z.of_nat m + Z.of_nat i) b st))
      as (H1 & H2 & H3).
    { rewrite length_store. lia. }
    replace (Z.of_nat m + Z.of_nat i) with (Z.of_nat (m + i)) in * by lia.
    split; [|split].
    + intros [|j] c Hj; simpl in Hj.
      * injection Hj as <-. rewrite Nat.add_0_r, H2 by lia.
        apply lookup_store_eq. lia.
      * replace (m + i + S j)%nat with (m + S i + j)%nat by lia.
        now apply H1.
    + intros k Hk. rewrite H2 by lia. apply lookup_store_ne. lia.
    + rewrite H3, writes_store, storesUp_S, <- app_assoc.
      replace (m + S i)%nat with (S (m + i)) by lia. reflexivity.
Qed.

(** ** The anchor of a declared match *)

(** The bytes of a match before its token are G, u, l, f, o, f and gap
    bytes; none of them is the anchor. *)
Lemma phraseAt_before_token token B i a b k :
  phraseAt token B i a b ->
  (i <= k < i + 6 + a + b)%nat ->
  B !! k <> Some CHAR_CODE_CAPITAL_M.
Proof.
  intros (Hw1 & Hg1 & Hw2 & Hg2 & _) Hk.
  assert (k = i \/ k = i + 1 \/ k = i + 2 \/ k = i + 3 \/
          i + 4 <= k < i + 4 + a \/
          k = i + 4 + a \/ k = i + 4 + a + 1 \/
          i + 6 + a <= k < i + 6 + a + b)%nat as Hcases by lia.
  destruct Hcases as [->|[->|[->|[->|[Hin|[->|[->|Hin]]]]]]].
  - assert (B !! i = Some 71) as -> by word_at. intros [=].
  - assert (B !! (i + 1)%nat = Some 117) as -> by word_at. intros [=].
  - assert (B !! (i + 2)%nat = Some 108) as -> by word_at. intros [=].
  - assert (B !! (i + 3)%nat = Some 102) as -> by word_at. intros [=].
  - intros E.
    pose proof (gapAt_alpha B (i + 4) a (k - (i + 4)) Hg1) as Hna.
    replace (i + 4 + (k - (i + 4)))%nat with k in Hna by lia.
    rewrite E in Hna. specialize (Hna ltac:(lia)). discriminate.
  - assert (B !! (i + 4 + a)%nat = Some 111) as -> by word_at. intros [=].
  - assert (B !! (i + 4 + a + 1)%nat = Some 102) as -> by word_at. intros [=].
  - intros E.
    pose proof (gapAt_alpha B (i + 6 + a) b (k - (i + 6 + a)) Hg2) as Hna.
    replace (i + 6 + a + (k - (i + 6 + a)))%nat with k in Hna by lia.
    rewrite E in Hna. specialize (Hna ltac:(lia)). discriminate.
Qed.

Lemma FuzzyMatchAt_anchor B i a b :
  FuzzyMatchAt B i a b ->
  indexOf B CHAR_CODE_CAPITAL_M i = Z.of_nat (i + 6 + a + b).
Proof.
  intros H. apply indexOf_first.
  - lia.
  - destruct H as (_ & _ & _ & _ & Hw). word_at.
  - intros k Hk. now apply (phraseAt_before_token _ B i a b k H).
Qed.

Lemma phraseAt_token_bounds token B i a b :
  (0 < length token)%nat ->
  phraseAt token B i a b ->
  (i + 6 + a + b + length token <= length B)%nat.
Proof.
  intros Hlen (_ & _ & _ & _ & Hw).
  destruct (lookup_lt_is_Some_2 token (length token - 1)) as [c Hc]; [lia|].
  apply Hw, lookup_lt_Some in Hc. lia.
Qed.

(** ** The patch of a declared match *)

Lemma eraseParenth_length st :
  length (bytes (eraseParenth (findParenthStart (bytes st)) st))
  = length (bytes st).
Proof.
  destruct (findParenthStart_spec (bytes st)) as [[-> _]|(p & -> & Hp & _)].
  - reflexivity.
  - now apply eraseParenth_spec.
Qed.

Lemma applyPatch_length i st :
  length (bytes (applyPatch i st)) = length (bytes st).
Proof.
  unfold applyPatch. rewrite replaceLoop_length. apply eraseParenth_length.
Qed.

(** The stores of the erasure are inside the buffer. *)
Lemma eraseParenth_writes st :
  exists ws,
    writes (eraseParenth (findParenthStart (bytes st)) st) = ws ++ writes st /\
    Forall (fun idx => 0 <= idx < Z.of_nat (length (bytes st))) ws.
Proof.
  destruct (findParenthStart_spec (bytes st)) as [[-> _]|(p & -> & Hp & _)].
  - exists []. split; [reflexivity|constructor].
  - destruct (eraseParenth_spec p st Hp) as (_ & _ & _ & ws & Hws & Hb).
    exists ws. split; [exact Hws|].
    eapply Forall_impl; [exact Hb|]. intros idx Hidx. cbv beta in Hidx. clear - Hidx. lia.
Qed.

(** Once a match is declared at [i], the replacement lands on the token of
    the match after the erasure has run: the six bytes of "Sweden" stand
    where "Mexico" stood, every other index holds what the erasure left,
    and the stores of the copy are the six indices of the token. *)
Lemma applyPatch_match i a b st :
  FuzzyMatchAt (bytes st) i a b ->
  let m := (i + 6 + a + b)%nat in
  let erased := eraseParenth (findParenthStart (bytes st)) st in
  wordAt REPLACEMENT_BYTES (bytes (applyPatch i st)) m /\
  (forall k, (k < m \/ m + 6 <= k)%nat ->
     bytes (applyPatch i st) !! k = bytes erased !! k) /\
  writes (applyPatch i st) = storesUp m 6 ++ writes erased.
Proof.
  intros H m erased. unfold applyPatch.
  rewrite (FuzzyMatchAt_anchor _ _ _ _ H). fold m. fold erased.
  assert (m + 6 <= length (bytes st))%nat as Hb.
  { apply (phraseAt_token_bounds (charCodes "Mexico") _ i a b); [simpl; lia|].
    exact H. }
  destruct (replaceLoop_spec m REPLACEMENT_BYTES 0 erased) as (H1 & H2 & H3).
  { unfold erased. rewrite eraseParenth_length. simpl. lia. }
  rewrite Nat.add_0_r in *. split; [|split].
  - intros j c Hj. now apply H1.
  - intros k Hk. apply H2. simpl. lia.
  - exact H3.
Qed.

(** ** More iterations change no result *)

Lemma skipGap_mono fuel fuel' B i off r :
  (fuel <= fuel')%nat ->
  skipGap fuel B i off = Some r -> skipGap fuel' B i off = Some r.
Proof.
  intros Hle H. apply skipGap_Some in H as (H1 & H2 & H3 & H4).
  replace r with (off + (r - off))%nat by lia.
  apply skipGap_stops.
  - lia.
  - intros k Hk. apply H3. lia.
  - now replace (off + (r - off))%nat with r by lia.
Qed.

Lemma matchPattern_mono fuel fuel' B i : forall pattern off r,
  (fuel <= fuel')%nat ->
  matchPattern fuel B i pattern off = Some r ->
  matchPattern fuel' B i pattern off = Some r.
Proof.
  induction pattern as [|p pattern IH]; intros off r Hle H; [exact H|].
  rewrite matchPattern_cons in *.
  destruct (length B <=? i + off)%nat; [exact H|].
  destruct ((p =? CHAR_CODE_SPACE) && negb (isAlphaChar (B !! (i + off)%nat))).
  - destruct (skipGap fuel B i off) as [off'|] eqn:E; [|discriminate].
    rewrite (skipGap_mono fuel fuel' B i off off' Hle E). now apply IH.
  - destruct (js_eq (B !! (i + off)%nat) p); [now apply IH|exact H].
Qed.

Lemma foundMatch_mono fuel fuel' B i r :
  (fuel <= fuel')%nat ->
  foundMatch fuel B i = Some r -> foundMatch fuel' B i = Some r.
Proof. apply matchPattern_mono. Qed.

Lemma scanFrom_mono fuel fuel' : forall n i st st',
  (fuel <= fuel')%nat ->
  scanFrom fuel n i st = Finished st' ->
  scanFrom fuel' n i st = Finished st'.
Proof.
  induction n as [|n IH]; intros i st st' Hle H; [exact H|].
  simpl in *.
  destruct (foundMatch fuel (bytes st) i) as [r|] eqn:E; [|discriminate].
  rewrite (foundMatch_mono fuel fuel' _ _ _ Hle E).
  destruct r; now apply IH.
Qed.

(** A run that returns within some number of iterations of its gap loops
    returns the same buffer within any larger number. *)
Lemma patchLabelBytesIfNeeded_mono fuel fuel' B st :
  (fuel <= fuel')%nat ->
  patchLabelBytesIfNeeded fuel B = Finished st ->
  patchLabelBytesIfNeeded fuel' B = Finished st.
Proof. apply scanFrom_mono. Qed.

(** ** Invariants of the scan *)

(** A property of the next start index and of the buffer that every
    iteration of the outer loop keeps holds when the run ends, and where
    it hangs. *)
Lemma scanFrom_invariant (P : nat -> State -> Prop) fuel len :
  (forall j st, (j < len)%nat -> P j st ->
     match foundMatch fuel (bytes st) j with
     | Some true => P (S j) (applyPatch j st)
     | Some false => P (S j) st
     | None => True
     end) ->
  forall n j st, (j + n = len)%nat -> P j st ->
    match scanFrom fuel n j st with
    | Finished st' => P len st'
    | OutOfFuel st' =>
        exists j', (j <= j' < len)%nat /\ P j' st' /\
                   foundMatch fuel (bytes st') j' = None
    end.
Proof.
  intros Hstep. induction n as [|n IH]; intros j st Hlen HP; simpl.
  - now replace len with j by lia.
  - specialize (Hstep j st ltac:(lia) HP).
    destruct (foundMatch fuel (bytes st) j) as [[|]|] eqn:E.
    + specialize (IH (S j) _ ltac:(lia) Hstep).
      destruct (scanFrom fuel n (S j) (applyPatch j st)); [exact IH|].
      destruct IH as (j' & H1 & H2). exists j'. split; [lia|exact H2].
    + specialize (IH (S j) _ ltac:(lia) Hstep).
      destruct (scanFrom fuel n (S j) st); [exact IH|].
      destruct IH as (j' & H1 & H2). exists j'. split; [lia|exact H2].
    + exists j. split; [lia|]. split; [exact HP|exact E].
Qed.

(** The same for a property of the buffer alone. *)
Lemma scanFrom_preserves (P : State -> Prop) fuel :
  (forall j st, P st -> foundMatch fuel (bytes st) j = Some true ->
     P (applyPatch j st)) ->
  forall n j st, P st -> P (stateOf (scanFrom fuel n j st)).
Proof.
  intros Hstep n j st HP.
  pose proof (scanFrom_invariant (fun _ => P) fuel (j + n)) as H.
  specialize (H ltac:(intros j' st' _ HP';
    destruct (foundMatch fuel (bytes st') j') as [[|]|] eqn:E;
    [now apply Hstep|exact HP'|exact I]) n j st eq_refl HP).
  destruct (scanFrom fuel n j st); [exact H|].
  now destruct H as (_ & _ & H & _).
Qed.

Lemma noMatchIn_correct B :
  noMatchIn B = true -> forall i a b, ~ FuzzyMatchAt B i a b.
Proof.
  unfold noMatchIn. rewrite forallb_forall. intros H i a b Hm.
  assert (i < length B)%nat as Hi.
  { destruct Hm as (Hw & _). apply (lookup_lt_Some B i 71).
    rewrite <- (Nat.add_0_r i). now apply Hw. }
  specialize (H i ltac:(apply in_seq; lia)).
  now rewrite (foundMatch_complete _ B i a b (Nat.le_refl _) Hm) in H.
Qed.

(** ** Termination of the gap loop, and where it fails *)

(** The gap loop ends when an alphabetic byte follows within its
    iterations. *)
Lemma skipGap_total d : forall fuel B i off,
  (1 <= d <= fuel)%nat ->
  isAlphaChar (B !! (i + (off + d))%nat) = true ->
  exists r, skipGap fuel B i off = Some r /\ (r <= off + d)%nat.
Proof.
  induction d as [|d IH]; intros fuel B i off Hd Ha; [lia|].
  destruct fuel as [|fuel]; [lia|]. simpl.
  destruct (isAlphaChar (B !! (i + S off)%nat)) eqn:E; simpl.
  - exists (S off). split; [reflexivity|lia].
  - destruct (Nat.eq_dec d 0%nat) as [->|Hd0].
    + replace (off + 1)%nat with (S off) in Ha by lia. congruence.
    + destruct (IH fuel B i (S off)) as (r & Hr & Hle); [lia| |].
      * now replace (S off + d)%nat with (off + S d)%nat by lia.
      * exists r. split; [exact Hr|lia].
Qed.

(** On a buffer whose last byte is alphabetic every candidate is decided
    within [length] iterations of each gap loop. *)
Lemma matchPattern_total fuel B i :
  isAlphaChar (B !! (length B - 1)%nat) = true ->
  (length B <= fuel)%nat ->
  forall pattern off, exists r, matchPattern fuel B i pattern off = Some r.
Proof.
  intros Hlast Hfuel.
  induction pattern as [|p pattern IH]; intros off; [now exists true|].
  rewrite matchPattern_cons.
  destruct (length B <=? i + off)%nat eqn:Hlen; [now exists false|].
  apply Nat.leb_gt in Hlen.
  destruct ((p =? CHAR_CODE_SPACE) && negb (isAlphaChar (B !! (i + off)%nat)))
    eqn:Hgap.
  - apply andb_true_iff in Hgap as [_ Hna]. apply negb_true_iff in Hna.
    assert (i + off <> length B - 1)%nat as Hne by (intros E; congruence).
    destruct (skipGap_total (length B - 1 - (i + off)) fuel B i off)
      as (r & -> & _); [lia| |apply IH].
    now replace (i + (off + (length B - 1 - (i + off))))%nat
      with (length B - 1)%nat by lia.
  - destruct (js_eq (B !! (i + off)%nat) p); [apply IH|now exists false].
Qed.

(** A candidate that reaches a marker with no alphabetic byte left in the
    buffer never comes back: the gap loop reads past the end for ever. *)
Lemma foundMatch_hangs fuel B i :
  wordAt (charCodes "Gulf") B i ->
  (i + 4 < length B)%nat ->
  (forall k, (i + 4 <= k)%nat -> isAlphaChar (B !! k) = false) ->
  foundMatch fuel B i = None.
Proof.
  intros Hw Hlen Hna. unfold foundMatch. rewrite SEARCH_PATTERN_BYTES_eq.
  do 4 (rewrite matchPattern_byte; [|intros [=]|word_at]).
  destruct (lookup_lt_is_Some_2 B (i + 4)%nat Hlen) as [c Hc].
  change 32 with CHAR_CODE_SPACE.
  rewrite (matchPattern_marker fuel B i _ 4%nat c Hc).
  - rewrite skipGap_diverges; [reflexivity|]. intros k Hk. apply Hna. lia.
  - rewrite <- Hc. apply Hna. lia.
Qed.

(** With no fuzzy match in the buffer no iteration of the outer loop
    stores anything, however far the run gets. *)
Lemma unmatched_buffer_untouched B :
  (forall i a b, ~ FuzzyMatchAt B i a b) ->
  forall fuel, stateOf (patchLabelBytesIfNeeded fuel B) = mkState B [].
Proof.
  intros Hno fuel. unfold patchLabelBytesIfNeeded.
  apply (scanFrom_preserves (fun st => st = mkState B []) fuel);
    [|reflexivity].
  intros j st -> Hm. apply foundMatch_sound in Hm as (a & b & Hm).
  exfalso. now apply (Hno j a b).
Qed.


(** The separators of the data the code was written for. *)
Example run_corrupted_separators :
  forall fuel, (2 <= fuel)%nat ->
    patchLabelBytesIfNeeded fuel
      (charCodes "Gulf" ++ [1; 2] ++ charCodes "of" ++ [10]
         ++ charCodes "Mexico")
    = Finished (mkState
        (charCodes "Gulf" ++ [1; 2] ++ charCodes "of" ++ [10]
           ++ charCodes "Sweden")
        (storesUp 9 6)).
Proof.
  intros fuel Hfuel. apply (patchLabelBytesIfNeeded_mono 2 fuel _ _ Hfuel).
  vm_compute. reflexivity.
Qed.

Example run_spec_example :
  forall fuel, (1 <= fuel)%nat ->
    patchLabelBytesIfNeeded fuel (charCodes "Gulf of Mexico (Gulf of America)")
    = Finished (mkState (charCodes "Gulf of Sweden                  ")
        (storesUp 8 6 ++ storesUp 15 17)).
Proof.
  intros fuel Hfuel. apply (patchLabelBytesIfNeeded_mono 1 fuel _ _ Hfuel).
  vm_compute. reflexivity.
Qed.

(** ** Buffers with one run of non-alphabetic bytes at most *)

(** A match has two gaps with the alphabetic "of" between them, so a
    buffer whose non-alphabetic bytes are all next to one another holds no
    match. *)
Lemma single_run_no_match B :
  (forall p q r c d, (p <= q <= r)%nat ->
     B !! p = Some c -> isAlphaChar (Some c) = false ->
     B !! r = Some d -> isAlphaChar (Some d) = false ->
     isAlphaChar (B !! q) = false) ->
  forall i a b, ~ FuzzyMatchAt B i a b.
Proof.
  intros Hrun i a b (Hw1 & [Ha Hg1] & Hw2 & [Hb Hg2] & Hw3).
  destruct (Hg1 0%nat Ha) as (c & Hc & Hca).
  destruct (Hg2 0%nat Hb) as (d & Hd & Hda).
  specialize (Hrun (i + 4 + 0)%nat (i + 4 + a)%nat (i + 6 + a + 0)%nat c d
                ltac:(lia) Hc Hca Hd Hda).
  assert (B !! (i + 4 + a)%nat = Some 111) as E by word_at.
  rewrite E in Hrun. discriminate.
Qed.

Lemma alpha_run_alpha (X g Y : list Z) :
  Forall (fun c => isAlphaChar (Some c) = true) X ->
  Forall (fun c => isAlphaChar (Some c) = false) g ->
  Forall (fun c => isAlphaChar (Some c) = true) Y ->
  forall i a b, ~ FuzzyMatchAt (X ++ g ++ Y) i a b.
Proof.
  intros HX Hg HY. rewrite Forall_lookup in HX, Hg, HY.
  assert (forall p c, (X ++ g ++ Y) !! p = Some c ->
            isAlphaChar (Some c) = false ->
            (length X <= p < length X + length g)%nat) as Hin.
  { intros p c Hp Hc.
    destruct (Nat.lt_ge_cases p (length X)) as [Hlt|Hge].
    - rewrite lookup_app_l in Hp by exact Hlt.
      rewrite (HX p c Hp) in Hc. discriminate.
    - split; [exact Hge|]. rewrite lookup_app_r in Hp by exact Hge.
      destruct (Nat.lt_ge_cases (p - length X) (length g)) as [Hlt|Hge'];
        [lia|].
      rewrite lookup_app_r in Hp by exact Hge'.
      rewrite (HY _ c Hp) in Hc. discriminate. }
  apply single_run_no_match. intros p q r c d Hpq Hp Hc Hr Hd.
  apply Hin in Hp; [|exact Hc]. apply Hin in Hr; [|exact Hd].
  rewrite lookup_app_r by lia. rewrite lookup_app_l by lia.
  destruct (lookup_lt_is_Some_2 g (q - length X)) as [e He]; [lia|].
  rewrite He. now apply (Hg _ e He).
Qed.

(** The example of the specification, whatever the iterations given to the
    gap loops: no candidate reaches one. *)
Example no_match_GulfXofXMexico :
  forall fuel i, foundMatch fuel (charCodes "GulfXofXMexico") i = Some false.
Proof.
  intros fuel i.
  do 14 (destruct i as [|i]; [reflexivity|]).
  unfold foundMatch. rewrite SEARCH_PATTERN_BYTES_eq, matchPattern_cons.
  replace (length (charCodes "GulfXofXMexico") <=?
           S (S (S (S (S (S (S (S (S (S (S (S (S (S i))))))))))))) + 0)%nat
    with true; [reflexivity|].
  symmetry. apply Nat.leb_le. simpl. lia.
Qed.

(** ** One occurrence among the others *)

(** A phrase is read from its own bytes only. *)
Lemma phraseAt_local token B B' i a b :
  phraseAt token B i a b ->
  (forall k, (i <= k < i + 6 + a + b + length token)%nat ->
     B' !! k = B !! k) ->
  phraseAt token B' i a b.
Proof.
  intros (Hw1 & [Ha Hg1] & Hw2 & [Hb Hg2] & Hw3) Hsame.
  assert (forall w k, (i <= k)%nat ->
            (k + length w <= i + 6 + a + b + length token)%nat ->
            wordAt w B k -> wordAt w B' k) as Hword.
  { intros w k Hk Hlen Hw j c Hj. rewrite Hsame; [now apply Hw|].
    apply lookup_lt_Some in Hj. lia. }
  assert (forall k n, (i <= k)%nat ->
            (k + n <= i + 6 + a + b + length token)%nat ->
            gapAt B k n -> gapAt B' k n) as Hgap.
  { intros k n Hk Hlen [Hn Hg]. split; [exact Hn|]. intros j Hj.
    rewrite Hsame by lia. now apply Hg. }
  split; [apply (Hword _ i); [lia|simpl; lia|exact Hw1]|].
  split; [apply Hgap; [lia|lia|now split]|].
  split; [apply Hword; [lia|simpl; lia|exact Hw2]|].
  split; [apply Hgap; [lia|lia|now split]|].
  apply Hword; [lia|lia|exact Hw3].
Qed.

(** In a phrase whose token has no G, the G that opens it is the only
    one: no other occurrence starts inside it. *)
Lemma phraseAt_start_unique token B i a b k :
  phraseAt token B i a b ->
  (forall j, token !! j <> Some 71) ->
  B !! k = Some 71 ->
  (i <= k)%nat ->
  k = i \/ (i + 6 + a + b + length token <= k)%nat.
Proof.
  intros (Hw1 & Hg1 & Hw2 & Hg2 & Hw3) Htok HG Hk.
  destruct (Nat.le_gt_cases (i + 6 + a + b + length token) k) as [?|Hlt];
    [now right|]. left.
  assert (k = i \/ k = i + 1 \/ k = i + 2 \/ k = i + 3 \/
          i + 4 <= k < i + 4 + a \/
          k = i + 4 + a \/ k = i + 4 + a + 1 \/
          i + 6 + a <= k < i + 6 + a + b \/
          i + 6 + a + b <= k < i + 6 + a + b + length token)%nat
    as Hcases by lia.
  destruct Hcases as [->|[->|[->|[->|[Hin|[->|[->|[Hin|Hin]]]]]]]].
  - reflexivity.
  - assert (B !! (i + 1)%nat = Some 117) as E by word_at. congruence.
  - assert (B !! (i + 2)%nat = Some 108) as E by word_at. congruence.
  - assert (B !! (i + 3)%nat = Some 102) as E by word_at. congruence.
  - pose proof (gapAt_alpha B (i + 4) a (k - (i + 4)) Hg1 ltac:(lia)) as Hna.
    replace (i + 4 + (k - (i + 4)))%nat with k in Hna by lia.
    rewrite HG in Hna. discriminate.
  - assert (B !! (i + 4 + a)%nat = Some 111) as E by word_at. congruence.
  - assert (B !! (i + 4 + a + 1)%nat = Some 102) as E by word_at. congruence.
  - pose proof (gapAt_alpha B (i + 6 + a) b (k - (i + 6 + a)) Hg2 ltac:(lia))
      as Hna.
    replace (i + 6 + a + (k - (i + 6 + a)))%nat with k in Hna by lia.
    rewrite HG in Hna. discriminate.
  - destruct (lookup_lt_is_Some_2 token (k - (i + 6 + a + b))) as [c Hc];
      [lia|].
    pose proof (Hw3 _ _ Hc) as E.
    replace (i + 6 + a + b + (k - (i + 6 + a + b)))%nat with k in E by lia.
    exfalso. apply (Htok (k - (i + 6 + a + b))%nat). congruence.
Qed.

(** The gaps of a phrase at a given start are determined: each runs up to
    the next alphabetic byte. *)
Lemma phraseAt_gaps_unique t t' B i a b a' b' c c' :
  t !! 0%nat = Some c -> isAlphaChar (Some c) = true ->
  t' !! 0%nat = Some c' -> isAlphaChar (Some c') = true ->
  phraseAt t B i a b -> phraseAt t' B i a' b' ->
  a = a' /\ b = b'.
Proof.
  intros Hc Hca Hc' Hca' (_ & Hg1 & Hw2 & Hg2 & Hw3)
    (_ & Hg1' & Hw2' & Hg2' & Hw3').
  assert (a = a') as <-.
  { destruct (Nat.lt_trichotomy a a') as [Hlt|[?|Hgt]]; [|assumption|].
    - pose proof (gapAt_alpha B (i + 4) a' a Hg1' Hlt) as Hna.
      assert (B !! (i + 4 + a)%nat = Some 111) as E by word_at.
      rewrite E in Hna. discriminate.
    - pose proof (gapAt_alpha B (i + 4) a a' Hg1 Hgt) as Hna.
      assert (B !! (i + 4 + a')%nat = Some 111) as E by word_at.
      rewrite E in Hna. discriminate. }
  split; [reflexivity|].
  destruct (Nat.lt_trichotomy b b') as [Hlt|[?|Hgt]]; [|assumption|].
  - pose proof (gapAt_alpha B (i + 6 + a) b' b Hg2' Hlt) as Hna.
    pose proof (Hw3 0%nat c Hc) as E. rewrite Nat.add_0_r in E.
    rewrite E, Hca in Hna. discriminate.
  - pose proof (gapAt_alpha B (i + 6 + a) b b' Hg2 Hgt) as Hna.
    pose proof (Hw3' 0%nat c' Hc') as E. rewrite Nat.add_0_r in E.
    rewrite E, Hca' in Hna. discriminate.
Qed.

Lemma token_no_G_Mexico j : charCodes "Mexico" !! j <> Some 71.
Proof. do 6 (destruct j as [|j]; [intros [=]|]). intros [=]. Qed.

Lemma token_no_G_Sweden j : charCodes "Sweden" !! j <> Some 71.
Proof. do 6 (destruct j as [|j]; [intros [=]|]). intros [=]. Qed.

(** A candidate that starts before a G of the buffer is decided by the
    time the matcher reaches that G: no later byte is read. *)
Lemma matchPattern_decided_before fuel B i g :
  B !! g = Some 71 ->
  (g - i <= fuel)%nat ->
  forall pattern off,
    Forall (fun p => p <> 71) pattern ->
    (i + off <= g)%nat ->
    exists r, matchPattern fuel B i pattern off = Some r.
Proof.
  intros HG Hfuel.
  induction pattern as [|p pattern IH]; intros off Hpat Hoff;
    [now exists true|].
  apply Forall_cons in Hpat as [Hp Hpat].
  rewrite matchPattern_cons.
  destruct (length B <=? i + off)%nat; [now exists false|].
  destruct ((p =? CHAR_CODE_SPACE) && negb (isAlphaChar (B !! (i + off)%nat)))
    eqn:Hgap.
  - apply andb_true_iff in Hgap as [_ Hna]. apply negb_true_iff in Hna.
    assert (i + off <> g)%nat as Hne.
    { intros E. rewrite E, HG in Hna. discriminate. }
    destruct (skipGap_total (g - (i + off)) fuel B i off) as (r & -> & Hr).
    + lia.
    + replace (i + (off + (g - (i + off))))%nat with g by lia.
      now rewrite HG.
    + apply IH; [exact Hpat|lia].
  - destruct (js_eq (B !! (i + off)%nat) p) eqn:E; [|now exists false].
    apply js_eq_true in E. apply IH; [exact Hpat|].
    assert (i + off <> g)%nat by congruence. lia.
Qed.

Lemma foundMatch_decided_before fuel B i g :
  B !! g = Some 71 -> (i < g)%nat -> (g - i <= fuel)%nat ->
  exists r, foundMatch fuel B i = Some r.
Proof.
  intros HG Hlt Hfuel. unfold foundMatch.
  rewrite SEARCH_PATTERN_BYTES_eq, matchPattern_cons.
  destruct (length B <=? i + 0)%nat; [now exists false|].
  replace (71 =? CHAR_CODE_SPACE) with false by reflexivity.
  cbn [andb].
  destruct (js_eq (B !! (i + 0)%nat) 71); [|now exists false].
  apply (matchPattern_decided_before fuel B i g HG Hfuel); [|lia].
  repeat constructor; intros [=].
Qed.

(** ** Buffers without a parenthetical *)

Lemma findParenthStart_none_inv B :
  findParenthStart B = -1 -> forall k, ~ parenthAt B k.
Proof.
  intros E. destruct (findParenthStart_spec B) as [[_ H]|(p & Hp & _)];
    [exact H|].
  rewrite E in Hp. lia.
Qed.

(** The same phrase with another token over the old one. *)
Lemma phraseAt_retoken t t' B B' i a b :
  phraseAt t B i a b ->
  (forall k, (i <= k < i + 6 + a + b)%nat -> B' !! k = B !! k) ->
  wordAt t' B' (i + 6 + a + b) ->
  phraseAt t' B' i a b.
Proof.
  intros (Hw1 & Hg1 & Hw2 & Hg2 & _) Hsame Ht.
  assert (phraseAt [] B i a b) as H0.
  { exact (conj Hw1 (conj Hg1 (conj Hw2 (conj Hg2 (wordAt_nil _ _))))). }
  apply (phraseAt_local [] B B') in H0.
  - destruct H0 as (K1 & K2 & K3 & K4 & _).
    exact (conj K1 (conj K2 (conj K3 (conj K4 Ht)))).
  - intros k Hk. apply Hsame. simpl in Hk. lia.
Qed.

Lemma wordAt_alpha w B m k :
  wordAt w B m ->
  Forall (fun c => isAlphaChar (Some c) = true) w ->
  (m <= k < m + length w)%nat ->
  isAlphaChar (B !! k) = true.
Proof.
  intros Hw Ha Hk. rewrite Forall_lookup in Ha.
  destruct (lookup_lt_is_Some_2 w (k - m)) as [c Hc]; [lia|].
  pose proof (Hw _ _ Hc) as E.
  replace (m + (k - m))%nat with k in E by lia.
  rewrite E. now apply (Ha _ c Hc).
Qed.

(** The patch of a match in a buffer without parenthetical. *)
Section PlainPatch.

Variables (j a b : nat) (st : State).
Hypothesis Hmatch : FuzzyMatchAt (bytes st) j a b.
Hypothesis Hplain : findParenthStart (bytes st) = -1.

(** The patch is the copy of "Sweden" over the token and nothing else. *)
Lemma applyPatch_plain :
  wordAt (charCodes "Sweden") (bytes (applyPatch j st)) (j + 6 + a + b) /\
  (forall k, (k < j + 6 + a + b \/ j + 6 + a + b + 6 <= k)%nat ->
     bytes (applyPatch j st) !! k = bytes st !! k) /\
  writes (applyPatch j st) = storesUp (j + 6 + a + b) 6 ++ writes st.
Proof.
  destruct (applyPatch_match j a b st Hmatch) as (H1 & H2 & H3).
  rewrite Hplain, eraseParenth_none in H2, H3. now repeat split.
Qed.

(** The copy puts letters over letters. *)
Lemma applyPatch_alpha k :
  isAlphaChar (bytes (applyPatch j st) !! k) = isAlphaChar (bytes st !! k).
Proof.
  destruct applyPatch_plain as (HS & Hout & _).
  assert (wordAt (charCodes "Mexico") (bytes st) (j + 6 + a + b)) as HM
    by apply Hmatch.
  destruct (Nat.lt_ge_cases k (j + 6 + a + b)) as [?|Hge];
    [now rewrite Hout by lia|].
  destruct (Nat.le_gt_cases (j + 6 + a + b + 6) k) as [?|Hlt];
    [now rewrite Hout by lia|].
  rewrite (wordAt_alpha (charCodes "Sweden") _ _ k HS)
    by (repeat constructor || (simpl; lia)).
  now rewrite (wordAt_alpha (charCodes "Mexico") _ _ k HM)
    by (repeat constructor || (simpl; lia)).
Qed.

(** So it brings in no parenthetical. *)
Lemma applyPatch_keeps_plain :
  findParenthStart (bytes (applyPatch j st)) = -1.
Proof.
  destruct applyPatch_plain as (HS & Hout & _).
  pose proof (findParenthStart_none_inv _ Hplain) as Hnp.
  assert (wordAt (charCodes "Mexico") (bytes st) (j + 6 + a + b)) as HM
    by apply Hmatch.
  apply findParenthStart_none. intros k Hk. rewrite applyPatch_alpha.
  destruct (isAlphaChar (bytes st !! (k + 1)%nat)) eqn:E; [|reflexivity].
  exfalso. apply (Hnp k). split; [|exact E].
  rewrite <- Hk. symmetry.
  pose proof (applyPatch_alpha k) as Hak. rewrite Hk in Hak.
  change (isAlphaChar (Some CHAR_CODE_PARENTH)) with false in Hak.
  apply Hout.
  destruct (Nat.lt_ge_cases k (j + 6 + a + b)) as [?|Hge]; [now left|]. right.
  destruct (Nat.le_gt_cases (j + 6 + a + b + 6) k) as [?|Hlt]; [lia|].
  rewrite (wordAt_alpha (charCodes "Mexico") _ _ k HM) in Hak
    by (repeat constructor || (simpl; lia)).
  discriminate.
Qed.


End PlainPatch.

Lemma FuzzyMatchAt_start B i a b : FuzzyMatchAt B i a b -> B !! i = Some 71.
Proof. intros (Hw & _). word_at. Qed.

(** One iteration of the outer loop and one occurrence of the input, in a
    buffer without parenthetical: the occurrence stands untouched until
    the scan reaches its start, and patched from then on. *)
Lemma tracked_step fuel st j i a b :
  (length (bytes st) <= fuel)%nat ->
  findParenthStart (bytes st) = -1 ->
  ((j <= i)%nat -> FuzzyMatchAt (bytes st) i a b) ->
  ((i < j)%nat -> PatchedAt (bytes st) i a b) ->
  match foundMatch fuel (bytes st) j with
  | Some true =>
      ((S j <= i)%nat -> FuzzyMatchAt (bytes (applyPatch j st)) i a b) /\
      ((i < S j)%nat -> PatchedAt (bytes (applyPatch j st)) i a b)
  | Some false =>
      ((S j <= i)%nat -> FuzzyMatchAt (bytes st) i a b) /\
      ((i < S j)%nat -> PatchedAt (bytes st) i a b)
  | None => True
  end.
Proof.
  intros Hfuel Hno Hbefore Hafter.
  destruct (foundMatch fuel (bytes st) j) as [[|]|] eqn:E; [| |exact I].
  - apply foundMatch_sound in E as (a0 & b0 & Hm).
    destruct (applyPatch_plain j a0 b0 st Hm Hno) as (HS & Hout & _).
    split.
    + intros Hlt. specialize (Hbefore ltac:(lia)).
      destruct (phraseAt_start_unique _ _ j a0 b0 i Hm token_no_G_Mexico
                  (FuzzyMatchAt_start _ _ _ _ Hbefore) ltac:(lia))
        as [?|Hge]; [lia|].
      simpl length in Hge.
      apply (phraseAt_local _ (bytes st)); [exact Hbefore|].
      intros k Hk. apply Hout. lia.
    + intros Hlt. destruct (Nat.eq_dec i j) as [->|Hne].
      * specialize (Hbefore (Nat.le_refl _)).
        destruct (phraseAt_gaps_unique (charCodes "Mexico")
                    (charCodes "Mexico") _ j a b a0 b0 77 77 eq_refl eq_refl
                    eq_refl eq_refl Hbefore Hm) as [<- <-].
        apply (phraseAt_retoken (charCodes "Mexico") _ (bytes st));
          [exact Hm| |exact HS].
        intros k Hk. apply Hout. lia.
      * specialize (Hafter ltac:(lia)).
        destruct (phraseAt_start_unique _ _ i a b j Hafter token_no_G_Sweden
                    (FuzzyMatchAt_start _ _ _ _ Hm) ltac:(lia))
          as [?|Hge]; [lia|].
        apply (phraseAt_local _ (bytes st)); [exact Hafter|].
        intros k Hk. apply Hout. lia.
  - split; [intros Hlt; apply Hbefore; lia|].
    intros Hlt. destruct (Nat.eq_dec i j) as [->|Hne]; [|apply Hafter; lia].
    specialize (Hbefore (Nat.le_refl _)).
    rewrite (foundMatch_complete fuel _ j a b Hfuel Hbefore) in E.
    discriminate.
Qed.

(** In a buffer without parenthetical every occurrence of the input is
    patched by one call, given [length] iterations for each gap loop. *)
Lemma every_occurrence_patched fuel B i a b :
  findParenthStart B = -1 ->
  (length B <= fuel)%nat ->
  FuzzyMatchAt B i a b ->
  PatchedAt (patched fuel B) i a b.
Proof.
  intros Hno Hfuel Hm. unfold patched, patchLabelBytesIfNeeded.
  pose proof (scanFrom_invariant
    (fun j st => length (bytes st) = length B /\
                 findParenthStart (bytes st) = -1 /\
                 ((j <= i)%nat -> FuzzyMatchAt (bytes st) i a b) /\
                 ((i < j)%nat -> PatchedAt (bytes st) i a b))
    fuel (length B)) as H.
  assert (i < length B)%nat as Hi
    by (apply FuzzyMatchAt_start, lookup_lt_Some in Hm; exact Hm).
  specialize (H ltac:(
    intros j st _ (Hlen & Hno' & H1 & H2);
    pose proof (tracked_step fuel st j i a b ltac:(lia) Hno' H1 H2) as Hstep;
    destruct (foundMatch fuel (bytes st) j) as [[|]|] eqn:E;
    [ apply foundMatch_sound in E as (a0 & b0 & E);
      split; [now rewrite applyPatch_length|];
      split; [now apply (applyPatch_keeps_plain j a0 b0)|exact Hstep]
    | split; [exact Hlen|]; split; [exact Hno'|exact Hstep]
    | exact I ])
    (length B) 0%nat (mkState B []) eq_refl).
  specialize (H ltac:(simpl; split; [reflexivity|];
                      split; [exact Hno|]; split; [auto|lia])).
  destruct (scanFrom fuel (length B) 0 (mkState B [])) as [st|st]; simpl.
  - destruct H as (_ & _ & _ & H). now apply H.
  - destruct H as (j & Hj & (Hlen & _ & H1 & H2) & Hnone).
    destruct (Nat.le_gt_cases j i) as [Hle|Hgt]; [|now apply H2].
    exfalso. specialize (H1 Hle).
    destruct (Nat.eq_dec j i) as [->|Hne].
    + rewrite (foundMatch_complete fuel _ i a b) in Hnone;
        [discriminate|lia|exact H1].
    + destruct (foundMatch_decided_before fuel (bytes st) j i) as [r Hr];
        [now apply (FuzzyMatchAt_start _ _ a b)|lia|lia|congruence].
Qed.

(** One iteration of the outer loop in a buffer without parenthetical: no
    start index the scan has passed holds a match any more. *)
Lemma scanned_step fuel st j :
  findParenthStart (bytes st) = -1 ->
  (forall i a b, (i < j)%nat -> ~ FuzzyMatchAt (bytes st) i a b) ->
  match foundMatch fuel (bytes st) j with
  | Some true =>
      forall i a b, (i < S j)%nat ->
        ~ FuzzyMatchAt (bytes (applyPatch j st)) i a b
  | Some false =>
      forall i a b, (i < S j)%nat -> ~ FuzzyMatchAt (bytes st) i a b
  | None => True
  end.
Proof.
  intros Hno Hpast.
  destruct (foundMatch fuel (bytes st) j) as [[|]|] eqn:E; [| |exact I].
  - apply foundMatch_sound in E as (a0 & b0 & Hm).
    destruct (applyPatch_plain j a0 b0 st Hm Hno) as (HS & Hout & _).
    intros i a b Hi Hf. destruct (Nat.eq_dec i j) as [->|Hne].
    + assert (PatchedAt (bytes (applyPatch j st)) j a0 b0) as Hp.
      { apply (phraseAt_retoken (charCodes "Mexico") _ (bytes st));
          [exact Hm| |exact HS].
        intros k Hk. apply Hout. lia. }
      destruct (phraseAt_gaps_unique (charCodes "Sweden") (charCodes "Mexico")
                  _ j a0 b0 a b 83 77 eq_refl eq_refl eq_refl eq_refl Hp Hf)
        as [<- <-].
      destruct Hf as (_ & _ & _ & _ & Hw).
      pose proof (Hw 0%nat 77 eq_refl) as E1.
      pose proof (HS 0%nat 83 eq_refl) as E2. congruence.
    + assert (bytes (applyPatch j st) !! j = Some 71) as HG.
      { rewrite Hout by lia. now apply (FuzzyMatchAt_start _ _ a0 b0). }
      destruct (phraseAt_start_unique _ _ i a b j Hf token_no_G_Mexico HG
                  ltac:(lia)) as [?|Hge]; [lia|].
      apply (Hpast i a b ltac:(lia)).
      apply (phraseAt_local _ (bytes (applyPatch j st))); [exact Hf|].
      intros k Hk. symmetry. apply Hout. lia.
  - intros i a b Hi Hf. destruct (Nat.eq_dec i j) as [->|Hne].
    + pose proof (foundMatch_mono fuel (Nat.max fuel (length (bytes st))) _ _ _
                    (Nat.le_max_l _ _) E) as E'.
      rewrite (foundMatch_complete _ _ j a b (Nat.le_max_r _ _) Hf) in E'.
      discriminate.
    + apply (Hpast i a b); [lia|exact Hf].
Qed.

(** In a buffer without parenthetical a call that returns leaves no fuzzy
    match behind. *)
Lemma returned_buffer_unmatched fuel B st1 :
  findParenthStart B = -1 ->
  patchLabelBytesIfNeeded fuel B = Finished st1 ->
  forall i a b, ~ FuzzyMatchAt (bytes st1) i a b.
Proof.
  intros Hno Hrun. unfold patchLabelBytesIfNeeded in Hrun.
  pose proof (scanFrom_invariant
    (fun j st => length (bytes st) = length B /\
                 findParenthStart (bytes st) = -1 /\
                 forall i a b, (i < j)%nat -> ~ FuzzyMatchAt (bytes st) i a b)
    fuel (length B)) as H.
  specialize (H ltac:(
    intros j st _ (Hlen & Hno' & Hpast);
    pose proof (scanned_step fuel st j Hno' Hpast) as Hstep;
    destruct (foundMatch fuel (bytes st) j) as [[|]|] eqn:E;
    [ apply foundMatch_sound in E as (a0 & b0 & E);
      split; [now rewrite applyPatch_length|];
      split; [now apply (applyPatch_keeps_plain j a0 b0)|exact Hstep]
    | split; [exact Hlen|]; split; [exact Hno'|exact Hstep]
    | exact I ])
    (length B) 0%nat (mkState B []) eq_refl).
  specialize (H ltac:(simpl; split; [reflexivity|];
                      split; [exact Hno|]; intros; lia)).
  rewrite Hrun in H. destruct H as (Hlen & _ & H).
  intros i a b Hf. apply (H i a b); [|exact Hf].
  apply FuzzyMatchAt_start, lookup_lt_Some in Hf. lia.
Qed.

(** ** A second run over a patched buffer *)







(** A call returns with the buffer untouched when every candidate is
    decided and none is a match. *)
Lemma decided_unmatched_returns fuel B :
  (forall i a b, ~ FuzzyMatchAt B i a b) ->
  (forall j, (j < length B)%nat -> exists r, foundMatch fuel B j = Some r) ->
  patchLabelBytesIfNeeded fuel B = Finished (mkState B []).
Proof.
  intros Hno Hdec. unfold patchLabelBytesIfNeeded.
  pose proof (scanFrom_invariant (fun _ st => st = mkState B []) fuel
                (length B)) as H.
  specialize (H ltac:(intros j st _ ->;
    destruct (foundMatch fuel (bytes (mkState B [])) j) as [[|]|] eqn:E;
    [ apply foundMatch_sound in E as (a & b & E); exfalso;
      now apply (Hno j a b)
    | reflexivity | exact I ])
    (length B) 0%nat (mkState B []) eq_refl eq_refl).
  destruct (scanFrom fuel (length B) 0 (mkState B [])) as [st|st].
  - now rewrite H.
  - destruct H as (j & Hj & -> & Hnone). exfalso.
    destruct (Hdec j ltac:(lia)) as [r Hr]. simpl in Hnone. congruence.
Qed.


(** ** Candidates that are failed early, and runs that stop *)

(** A candidate that does not start with "Gulf" is failed before any gap
    loop, whatever the iterations allowed. *)
Lemma foundMatch_needs_Gulf fuel B j :
  ~ wordAt (charCodes "Gulf") B j -> foundMatch fuel B j = Some false.
Proof.
  intros Hno. unfold foundMatch. rewrite SEARCH_PATTERN_BYTES_eq.
  destruct (decide (B !! (j + 0)%nat = Some 71)) as [E0|E0];
    [|now apply matchPattern_mismatch].
  rewrite matchPattern_byte by (exact E0 || intros [=]).
  destruct (decide (B !! (j + 1)%nat = Some 117)) as [E1|E1];
    [|now apply matchPattern_mismatch].
  rewrite matchPattern_byte by (exact E1 || intros [=]).
  destruct (decide (B !! (j + 2)%nat = Some 108)) as [E2|E2];
    [|now apply matchPattern_mismatch].
  rewrite matchPattern_byte by (exact E2 || intros [=]).
  destruct (decide (B !! (j + 3)%nat = Some 102)) as [E3|E3];
    [|now apply matchPattern_mismatch].
  exfalso. apply Hno. rewrite Nat.add_0_r in E0. word_hyp.
Qed.

(** The outer loop stops for good at the first candidate that is not
    decided. *)
Lemma scanFrom_hangs_at fuel st : forall k n j,
  (k < n)%nat ->
  (forall j', (j <= j' < j + k)%nat ->
     foundMatch fuel (bytes st) j' = Some false) ->
  foundMatch fuel (bytes st) (j + k) = None ->
  scanFrom fuel n j st = OutOfFuel st.
Proof.
  induction k as [|k IH]; intros n j Hn Hfail Hnone;
    (destruct n as [|n]; [lia|]); simpl.
  - rewrite Nat.add_0_r in Hnone. now rewrite Hnone.
  - rewrite (Hfail j) by lia. apply IH; [lia| |].
    + intros j' Hj'. apply Hfail. lia.
    + now replace (S j + k)%nat with (j + S k)%nat by lia.
Qed.

(** ** The claims *)

(** C1, refuted on the code: the patch operation does not terminate on
    every buffer.  On the five bytes of "Gulf " the candidate at index 0
    reaches the marker on the trailing space; the gap loop then reads
    index 5, past the end, where no byte is alphabetic, and whatever the
    number of iterations it is given it has not stopped: the call never
    returns, the candidate is not failed. *)
Theorem patch_hangs_on_trailing_gap :
  forall fuel,
    charCodes "Gulf " !! 5%nat = None /\
    skipGap fuel (charCodes "Gulf ") 0 4 = None /\
    patchLabelBytesIfNeeded fuel (charCodes "Gulf ")
    = OutOfFuel (mkState (charCodes "Gulf ") []).
Proof.
  intros fuel. split; [reflexivity|]. split.
  - apply skipGap_diverges. intros k Hk.
    rewrite lookup_ge_None_2; [reflexivity|simpl; lia].
  - unfold patchLabelBytesIfNeeded. simpl length. cbn [scanFrom bytes].
    rewrite foundMatch_hangs; [reflexivity| | |].
    + intros j c Hj. do 4 (destruct j as [|j]; [exact Hj|]). discriminate Hj.
    + simpl. lia.
    + intros k Hk. destruct (Nat.eq_dec k 4%nat) as [->|Hne]; [reflexivity|].
      rewrite lookup_ge_None_2; [reflexivity|simpl; lia].
Qed.




(** C3: a buffer that has the phrase with alphabetic bytes in the place of
    a separator, each separator being either such bytes or a run of
    non-alphabetic ones, yields no match at any start index: every
    candidate is failed (as is every candidate of "GulfXofXMexico"); and
    the marker fails the candidate on an alphabetic byte, so that one
    non-alphabetic byte at least must stand before the next alphabetic
    one. *)
Theorem alphabetic_separator_no_match :
  forall fuel s1 s2 i,
    (Forall (fun c => isAlphaChar (Some c) = true) s1 /\
     (Forall (fun c => isAlphaChar (Some c) = true) s2 \/
      Forall (fun c => isAlphaChar (Some c) = false) s2)) \/
    (Forall (fun c => isAlphaChar (Some c) = false) s1 /\
     Forall (fun c => isAlphaChar (Some c) = true) s2) ->
    let B := charCodes "Gulf" ++ s1 ++ charCodes "of" ++ s2
               ++ charCodes "Mexico" in
    (length B <= fuel)%nat ->
    foundMatch fuel B i = Some false /\
    (forall fuel' j, foundMatch fuel' (charCodes "GulfXofXMexico") j
                     = Some false) /\
    (forall fuel' B' j pattern off,
       isAlphaChar (B' !! (j + off)%nat) = true ->
       matchPattern fuel' B' j (CHAR_CODE_SPACE :: pattern) off = Some false).
Proof.
  intros fuel s1 s2 i Hsep B Hfuel.
  split; [|split; [exact no_match_GulfXofXMexico|]].
  2:{ intros fuel' B' j pattern off. apply matchPattern_marker_alpha. }
  assert (forall a b, ~ FuzzyMatchAt B i a b) as Hno.
  { assert (Forall (fun c => isAlphaChar (Some c) = true) (charCodes "Gulf"))
      as HG by (repeat constructor).
    assert (Forall (fun c => isAlphaChar (Some c) = true) (charCodes "of"))
      as HO by (repeat constructor).
    assert (Forall (fun c => isAlphaChar (Some c) = true) (charCodes "Mexico"))
      as HM by (repeat constructor).
    destruct Hsep as [[H1 [H2|H2]]|[H1 H2]].
    - replace B with (B ++ [] ++ []) by (now rewrite !app_nil_r).
      apply alpha_run_alpha; [|constructor|constructor].
      unfold B. now rewrite !Forall_app.
    - replace B with ((charCodes "Gulf" ++ s1 ++ charCodes "of") ++ s2
                        ++ charCodes "Mexico")
        by (unfold B; now rewrite <- !app_assoc).
      apply alpha_run_alpha; [|exact H2|exact HM]. now rewrite !Forall_app.
    - apply alpha_run_alpha; [exact HG|exact H1|]. now rewrite !Forall_app. }
  destruct (matchPattern_total fuel B i) with (pattern := SEARCH_PATTERN_BYTES)
    (off := 0%nat) as [[|] Hr]; [| |apply foundMatch_sound in Hr|exact Hr].
  - unfold B. rewrite !app_assoc, length_app, lookup_app_r by (simpl; lia).
    now replace (length (((charCodes "Gulf" ++ s1) ++ charCodes "of") ++ s2)
                 + length (charCodes "Mexico") - 1
                 - length (((charCodes "Gulf" ++ s1) ++ charCodes "of") ++ s2))%nat
      with 5%nat by (simpl; lia).
  - exact Hfuel.
  - destruct Hr as (a & b & Hr). exfalso. now apply (Hno a b).
Qed.

Lemma alphabetic_separator_no_match_witness :
  foundMatch 15 (charCodes "Gulf" ++ charCodes "X" ++ charCodes "of"
                   ++ [32; 32] ++ charCodes "Mexico") 0 = Some false /\
  (forall fuel' j, foundMatch fuel' (charCodes "GulfXofXMexico") j
                   = Some false) /\
  (forall fuel' B' j pattern off,
     isAlphaChar (B' !! (j + off)%nat) = true ->
     matchPattern fuel' B' j (CHAR_CODE_SPACE :: pattern) off = Some false).
Proof.
  apply (alphabetic_separator_no_match 15 (charCodes "X") [32; 32] 0).
  - left. split; [|right]; repeat constructor.
  - simpl. lia.
Defined.




(** C5: when a match is declared, whatever its start index, the
    parenthetical is looked for from index 0 of the whole buffer: it
    starts at the first opening parenthesis that an alphabetic byte
    follows.  With none the erasure changes nothing.  Otherwise every
    index from there through the next closing parenthesis, or through the
    end of the buffer when none follows, holds a space after the erasure
    and every other index its old byte; the replacement is then copied
    over that.  On "Gulf of Mexico (Gulf of America)" the call returns
    "Gulf of Sweden" followed by spaces over the whole parenthetical. *)
Theorem parenthetical_erased :
  forall fuel st i,
    foundMatch fuel (bytes st) i = Some true ->
    let B := bytes st in
    let erased := eraseParenth (findParenthStart B) st in
    ((findParenthStart B = -1 /\ (forall k, ~ parenthAt B k) /\ erased = st) \/
     (exists p,
        findParenthStart B = Z.of_nat p /\ parenthAt B p /\
        (forall k, (k < p)%nat -> ~ parenthAt B k) /\
        (forall k, (k < length B)%nat -> inParenthetical B p k ->
           bytes erased !! k = Some CHAR_CODE_SPACE) /\
        (forall k, ~ inParenthetical B p k -> bytes erased !! k = B !! k))) /\
    (exists m,
       indexOf B CHAR_CODE_CAPITAL_M i = Z.of_nat m /\
       wordAt (charCodes "Sweden") (bytes (applyPatch i st)) m /\
       forall k, (k < m \/ m + 6 <= k)%nat ->
         bytes (applyPatch i st) !! k = bytes erased !! k) /\
    (forall fuel', (1 <= fuel')%nat ->
       patchLabelBytesIfNeeded fuel'
         (charCodes "Gulf of Mexico (Gulf of America)")
       = Finished (mkState (charCodes "Gulf of Sweden                  ")
           (storesUp 8 6 ++ storesUp 15 17))).
Proof.
  intros fuel st i Hm B erased. apply foundMatch_sound in Hm as (a & b & Hm).
  split; [|split; [|exact run_spec_example]].
  - unfold erased.
    destruct (findParenthStart_spec B) as [[E H]|(p & E & Hp & Hq & Hfirst)].
    + left. rewrite E. repeat split. exact H.
    + right. exists p. rewrite E.
      destruct (eraseParenth_spec p st Hp) as (_ & H1 & H2 & _).
      repeat split; [apply Hq|apply Hq|exact Hfirst|exact H1|exact H2].
  - exists (i + 6 + a + b)%nat.
    destruct (applyPatch_match i a b st Hm) as (H1 & H2 & _).
    split; [now apply FuzzyMatchAt_anchor|]. split; [exact H1|exact H2].
Qed.

Lemma parenthetical_erased_witness :
  let st := mkState (charCodes "Gulf of Mexico (Gulf of America") [] in
  let B := bytes st in
  let erased := eraseParenth (findParenthStart B) st in
  ((findParenthStart B = -1 /\ (forall k, ~ parenthAt B k) /\ erased = st) \/
   (exists p,
      findParenthStart B = Z.of_nat p /\ parenthAt B p /\
      (forall k, (k < p)%nat -> ~ parenthAt B k) /\
      (forall k, (k < length B)%nat -> inParenthetical B p k ->
         bytes erased !! k = Some CHAR_CODE_SPACE) /\
      (forall k, ~ inParenthetical B p k -> bytes erased !! k = B !! k))) /\
  (exists m,
     indexOf B CHAR_CODE_CAPITAL_M 0 = Z.of_nat m /\
     wordAt (charCodes "Sweden") (bytes (applyPatch 0 st)) m /\
     forall k, (k < m \/ m + 6 <= k)%nat ->
       bytes (applyPatch 0 st) !! k = bytes erased !! k) /\
  (forall fuel', (1 <= fuel')%nat ->
     patchLabelBytesIfNeeded fuel'
       (charCodes "Gulf of Mexico (Gulf of America)")
     = Finished (mkState (charCodes "Gulf of Sweden                  ")
         (storesUp 8 6 ++ storesUp 15 17))).
Proof.
  apply (parenthetical_erased 31
           (mkState (charCodes "Gulf of Mexico (Gulf of America") []) 0).
  vm_compute. reflexivity.
Defined.



(** C7, refuted on the code: the absence of a match is not always a
    normal negative result.  The thirteen bytes of "Persian Gulf " hold no
    fuzzy match at any start index; the candidates at 0 to 7 are failed on
    their first byte, the candidate at 8 matches G, u, l, f and reaches
    the marker on the trailing space, and the gap loop then reads past the
    end for ever: whatever the iterations allowed, the call has not
    returned. *)
Theorem no_match_call_never_returns :
  (forall i a b, ~ FuzzyMatchAt (charCodes "Persian Gulf ") i a b) /\
  (forall j, (j < 8)%nat ->
     forall fuel, foundMatch fuel (charCodes "Persian Gulf ") j = Some false) /\
  (forall fuel, foundMatch fuel (charCodes "Persian Gulf ") 8 = None) /\
  (forall fuel,
     patchLabelBytesIfNeeded fuel (charCodes "Persian Gulf ")
     = OutOfFuel (mkState (charCodes "Persian Gulf ") [])).
Proof.
  assert (forall j, (j < 8)%nat ->
            forall fuel,
              foundMatch fuel (charCodes "Persian Gulf ") j = Some false)
    as Hfail.
  { intros j Hj fuel. apply foundMatch_needs_Gulf. intros Hw.
    specialize (Hw 0%nat 71 eq_refl). rewrite Nat.add_0_r in Hw.
    do 8 (destruct j as [|j]; [discriminate Hw|]). lia. }
  assert (forall fuel, foundMatch fuel (charCodes "Persian Gulf ") 8 = None)
    as Hnone.
  { intros fuel. apply foundMatch_hangs.
    - intros j c Hj. do 4 (destruct j as [|j]; [exact Hj|]). discriminate Hj.
    - simpl. lia.
    - intros k Hk. destruct (Nat.eq_dec k 12%nat) as [->|Hne]; [reflexivity|].
      rewrite lookup_ge_None_2; [reflexivity|simpl; lia]. }
  split; [apply noMatchIn_correct; vm_compute; reflexivity|].
  split; [exact Hfail|]. split; [exact Hnone|].
  intros fuel. unfold patchLabelBytesIfNeeded.
  apply (scanFrom_hangs_at fuel _ 8 _ 0).
  - simpl. lia.
  - intros j' Hj'. apply Hfail. lia.
  - apply Hnone.
Qed.




(** C9: whatever the buffer and however far the run gets, the buffer keeps
    its length, and every store the run has issued, in the erasure and in
    the replacement alike, is at an index inside the buffer. *)
Theorem patch_keeps_length_and_bounds :
  forall fuel B,
    let st := stateOf (patchLabelBytesIfNeeded fuel B) in
    length (bytes st) = length B /\
    Forall (fun idx => 0 <= idx < Z.of_nat (length B)) (writes st).
Proof.
  intros fuel B. unfold patchLabelBytesIfNeeded.
  apply (scanFrom_preserves
           (fun st => length (bytes st) = length B /\
              Forall (fun idx => 0 <= idx < Z.of_nat (length B)) (writes st))).
  - intros j st [Hlen Hw] Hm. apply foundMatch_sound in Hm as (a & b & Hm).
    split; [now rewrite applyPatch_length|].
    destruct (applyPatch_match j a b st Hm) as (_ & _ & ->).
    destruct (eraseParenth_writes st) as (ws & -> & Hws).
    pose proof (phraseAt_token_bounds (charCodes "Mexico") _ j a b
                  ltac:(simpl; lia) Hm) as Hb.
    simpl length in Hb at 1.
    rewrite !Forall_app. split; [|split; [|exact Hw]].
    + apply Forall_forall. intros idx Hidx. apply storesUp_bounds in Hidx.
      clear - Hidx Hb Hlen. lia.
    + now rewrite <- Hlen.
  - split; [reflexivity|constructor].
Qed.

(** C10: whenever the matcher declares a match at [i], the search for the
    anchor from [i] does not come back with [-1]: it stops on the M of the
    matched token itself, which lies with its five followers inside the
    buffer, every byte of the match before it being one of G, u, l, f, o,
    f or a gap byte; so the replacement lands on the matched token. *)
Theorem anchor_is_token_of_match :
  forall fuel B i ws,
    foundMatch fuel B i = Some true ->
    exists a b,
      FuzzyMatchAt B i a b /\
      indexOf B CHAR_CODE_CAPITAL_M i = Z.of_nat (i + 6 + a + b) /\
      indexOf B CHAR_CODE_CAPITAL_M i <> -1 /\
      (i + 6 + a + b + 6 <= length B)%nat /\
      (forall k, (i <= k < i + 6 + a + b)%nat ->
         B !! k <> Some CHAR_CODE_CAPITAL_M) /\
      wordAt (charCodes "Sweden")
        (bytes (applyPatch i (mkState B ws))) (i + 6 + a + b).
Proof.
  intros fuel B i ws Hm. apply foundMatch_sound in Hm as (a & b & Hm).
  exists a, b. pose proof (FuzzyMatchAt_anchor B i a b Hm) as Hidx.
  split; [exact Hm|]. split; [exact Hidx|]. split; [rewrite Hidx; lia|].
  split.
  { apply (phraseAt_token_bounds (charCodes "Mexico") B i a b); [simpl; lia|].
    exact Hm. }
  split; [intros k Hk; now apply (phraseAt_before_token _ B i a b k Hm)|].
  now destruct (applyPatch_match i a b (mkState B ws) Hm) as (H & _).
Qed.

Lemma anchor_is_token_of_match_witness :
  exists a b,
    FuzzyMatchAt (charCodes "MMM Gulf,,of  Mexico M") 4 a b /\
    indexOf (charCodes "MMM Gulf,,of  Mexico M") CHAR_CODE_CAPITAL_M 4
    = Z.of_nat (4 + 6 + a + b) /\
    indexOf (charCodes "MMM Gulf,,of  Mexico M") CHAR_CODE_CAPITAL_M 4 <> -1 /\
    (4 + 6 + a + b + 6 <= length (charCodes "MMM Gulf,,of  Mexico M"))%nat /\
    (forall k, (4 <= k < 4 + 6 + a + b)%nat ->
       charCodes "MMM Gulf,,of  Mexico M" !! k <> Some CHAR_CODE_CAPITAL_M) /\
    wordAt (charCodes "Sweden")
      (bytes (applyPatch 4 (mkState (charCodes "MMM Gulf,,of  Mexico M") [])))
      (4 + 6 + a + b).
Proof.
  apply (anchor_is_token_of_match 22 (charCodes "MMM Gulf,,of  Mexico M") 4 []).
  vm_compute. reflexivity.
Defined.

(** ** What one patch does to each byte *)

Lemma inParenthetical_dec B p k :
  inParenthetical B p k \/ ~ inParenthetical B p k.
Proof.
  unfold inParenthetical.
  destruct (Nat.le_gt_cases p k) as [Hle|Hgt]; [|right; intros [? _]; lia].
  induction k as [|k IH].
  - left. split; [exact Hle|]. intros j Hj. lia.
  - destruct (Nat.eq_dec p (S k)) as [->|Hne].
    + left. split; [lia|]. intros j Hj. lia.
    + destruct (IH ltac:(lia)) as [[_ H]|H].
      * destruct (decide (B !! k = Some CHAR_CODE_CLOSE)) as [E|E].
        -- right. intros [_ H']. apply (H' k); [lia|exact E].
        -- left. split; [exact Hle|]. intros j Hj.
           destruct (Nat.eq_dec j k) as [->|Hjk]; [exact E|]. apply H. lia.
      * right. intros [_ H']. apply H. split; [lia|].
        intros j Hj. apply H'. lia.
Qed.

(** After the patch of a match each index holds a byte of "Sweden" over
    the byte of "Mexico" it held, or a space the erasure has put inside
    the parenthetical, or its old byte. *)
Lemma applyPatch_cases j a b st k :
  FuzzyMatchAt (bytes st) j a b ->
  ((j + 6 + a + b <= k < j + 6 + a + b + 6)%nat /\
   bytes (applyPatch j st) !! k
   = charCodes "Sweden" !! (k - (j + 6 + a + b))%nat /\
   bytes st !! k = charCodes "Mexico" !! (k - (j + 6 + a + b))%nat) \/
  ((k < length (bytes st))%nat /\
   bytes (applyPatch j st) !! k = Some CHAR_CODE_SPACE /\
   exists p, findParenthStart (bytes st) = Z.of_nat p /\
             inParenthetical (bytes st) p k) \/
  bytes (applyPatch j st) !! k = bytes st !! k.
Proof.
  intros Hm. destruct (applyPatch_match j a b st Hm) as (HS & Hout & _).
  set (m := (j + 6 + a + b)%nat) in *.
  assert (wordAt (charCodes "Mexico") (bytes st) m) as HM by apply Hm.
  destruct (Nat.lt_ge_cases k m) as [Hlt|Hge].
  2: destruct (Nat.le_gt_cases (m + 6) k) as [Hle|Hin].
  3:{ left. split; [lia|].
      destruct (lookup_lt_is_Some_2 (charCodes "Sweden") (k - m)) as [c Hc];
        [simpl; lia|].
      destruct (lookup_lt_is_Some_2 (charCodes "Mexico") (k - m)) as [d Hd];
        [simpl; lia|].
      rewrite Hc, Hd. pose proof (HS _ _ Hc) as E1. pose proof (HM _ _ Hd) as E2.
      now replace (m + (k - m))%nat with k in E1, E2 by lia. }
  all: right; rewrite Hout by lia;
    destruct (findParenthStart_spec (bytes st))
      as [[-> _]|(p & E & Hp & _ & _)]; [now right| ];
    rewrite E;
    destruct (eraseParenth_spec p st Hp) as (_ & H1 & H2 & _);
    destruct (inParenthetical_dec (bytes st) p k) as [Hin'|Hout'];
    [ destruct (Nat.lt_ge_cases k (length (bytes st))) as [Hk|Hk];
      [ left; split; [exact Hk|]; split; [now apply H1|now exists p]
      | right; rewrite (lookup_ge_None_2 (bytes st)) by exact Hk;
        apply lookup_ge_None_2;
        destruct (eraseParenth_spec p st Hp) as (-> & _); exact Hk ]
    | right; now apply H2 ].
Qed.

(** X7: however far a run gets, every byte of the buffer is the byte the
    input held there, a space, or a byte of the replacement. *)
Theorem scan_stores_spaces_and_replacement :
  forall fuel B k c,
    patched fuel B !! k = Some c ->
    B !! k = Some c \/ c = CHAR_CODE_SPACE \/ c ∈ REPLACEMENT_BYTES.
Proof.
  intros fuel B. unfold patched, patchLabelBytesIfNeeded.
  apply (scanFrom_preserves
    (fun st => forall k c, bytes st !! k = Some c ->
       B !! k = Some c \/ c = CHAR_CODE_SPACE \/ c ∈ REPLACEMENT_BYTES)).
  - intros j st IH Hm k c Hc. apply foundMatch_sound in Hm as (a & b & Hm).
    destruct (applyPatch_cases j a b st k Hm)
      as [(Hk & E & _)|[(_ & E & _)|E]]; rewrite E in Hc.
    + right. right. apply list_elem_of_lookup. eexists. exact Hc.
    + right. left. congruence.
    + now apply IH.
  - intros k c Hc. now left.
Qed.

Lemma scan_stores_spaces_and_replacement_witness :
  charCodes "Gulf of Mexico (x)" !! 15%nat = Some 32 \/
  32 = CHAR_CODE_SPACE \/ 32 ∈ REPLACEMENT_BYTES.
Proof.
  apply (scan_stores_spaces_and_replacement 18
           (charCodes "Gulf of Mexico (x)") 15 32).
  vm_compute. reflexivity.
Defined.

(** X8: however far a run gets, a letter stands only where the input had
    a letter: no gap byte is turned into a letter. *)
Theorem scan_keeps_non_letters :
  forall fuel B k,
    isAlphaChar (patched fuel B !! k) = true -> isAlphaChar (B !! k) = true.
Proof.
  intros fuel B. unfold patched, patchLabelBytesIfNeeded.
  apply (scanFrom_preserves
    (fun st => forall k, isAlphaChar (bytes st !! k) = true ->
                         isAlphaChar (B !! k) = true)).
  - intros j st IH Hm k Hc. apply foundMatch_sound in Hm as (a & b & Hm).
    destruct (applyPatch_cases j a b st k Hm)
      as [(Hk & _ & E)|[(_ & E & _)|E]].
    + apply IH. rewrite E.
      remember (k - (j + 6 + a + b))%nat as d eqn:Hd.
      assert (d < 6)%nat as Hd6 by lia. clear - Hd6.
      do 6 (destruct d as [|d]; [reflexivity|]). lia.
    + rewrite E in Hc. discriminate.
    + apply IH. now rewrite <- E.
  - intros k Hc. exact Hc.
Qed.

Lemma scan_keeps_non_letters_witness :
  isAlphaChar (charCodes "Gulf,,of Mexico" !! 11%nat) = true.
Proof.
  apply (scan_keeps_non_letters 15 (charCodes "Gulf,,of Mexico") 11).
  vm_compute. reflexivity.
Defined.

(** ** Buffers on which the call returns *)

(** The patch of a match keeps the last byte a letter and the
    parentheticals closed. *)
Lemma applyPatch_keeps_closed j a b st :
  FuzzyMatchAt (bytes st) j a b ->
  isAlphaChar (bytes st !! (length (bytes st) - 1)%nat) = true ->
  closedParentheticals (bytes st) ->
  isAlphaChar (bytes (applyPatch j st) !! (length (bytes st) - 1)%nat) = true /\
  closedParentheticals (bytes (applyPatch j st)).
Proof.
  intros Hm Hlast Hclosed.
  set (B := bytes st) in *. set (B' := bytes (applyPatch j st)).
  assert (forall k, isAlphaChar (B' !! k) = true -> isAlphaChar (B !! k) = true)
    as Hletters.
  { intros k Hk. destruct (applyPatch_cases j a b st k Hm)
      as [(Hin & _ & E)|[(_ & E & _)|E]]; fold B B' in E.
    - rewrite E. remember (k - (j + 6 + a + b))%nat as d eqn:Hd.
      assert (d < 6)%nat as Hd6 by lia. clear - Hd6.
      do 6 (destruct d as [|d]; [reflexivity|]). lia.
    - rewrite E in Hk. discriminate.
    - now rewrite <- E. }
  split.
  - destruct (applyPatch_cases j a b st (length B - 1) Hm)
      as [(Hin & E & _)|[(Hk & E & p & Hp & Hin)|E]]; fold B B' in E |- *.
    + rewrite E. remember (length B - 1 - (j + 6 + a + b))%nat as d eqn:Hd.
      assert (d < 6)%nat as Hd6 by lia. clear - Hd6.
      do 6 (destruct d as [|d]; [reflexivity|]). lia.
    + exfalso. destruct Hin as [Hpk Hno].
      destruct (findParenthStart_spec B) as [[E' _]|(p' & E' & _ & Hq & _)];
        [fold B in Hp; rewrite E' in Hp; lia|].
      fold B in Hp. assert (p' = p) as -> by lia.
      destruct (Hclosed p Hq) as (r & Hr & Hclose).
      apply lookup_lt_Some in Hclose as Hrlen.
      destruct (Nat.eq_dec r (length B - 1)%nat) as [->|Hne].
      * rewrite Hclose in Hlast. discriminate.
      * apply (Hno r); [lia|exact Hclose].
    + now rewrite E.
  - intros q [Hq1 Hq2]. fold B' in Hq1, Hq2.
    assert (B !! q = Some CHAR_CODE_PARENTH /\
            ~ (exists p, findParenthStart B = Z.of_nat p /\
                         inParenthetical B p q)) as [Hq1' Hnotin].
    { destruct (applyPatch_cases j a b st q Hm)
        as [(Hin & E & _)|[(_ & E & _)|E]]; fold B B' in E.
      - exfalso. rewrite E in Hq1.
        remember (q - (j + 6 + a + b))%nat as d eqn:Hd.
        assert (d < 6)%nat as Hd6 by lia. clear - Hd6 Hq1.
        do 6 (destruct d as [|d]; [discriminate Hq1|]). lia.
      - rewrite E in Hq1. discriminate.
      - split; [now rewrite <- E|]. intros (p & Hp & Hin).
        destruct (findParenthStart_spec B) as [[E' _]|(p' & E' & Hlen & _ & _)];
          [rewrite E' in Hp; lia|].
        assert (p' = p) as -> by lia.
        unfold B, B' in *.
        destruct (eraseParenth_spec p st Hlen) as (_ & H1 & _ & _).
        apply lookup_lt_Some in Hq1 as Hqlen.
        rewrite applyPatch_length in Hqlen.
        pose proof (H1 q Hqlen Hin) as E2.
        destruct (applyPatch_match j a b st Hm) as (HS & Hout & _).
        rewrite E' in Hout.
        destruct (Nat.lt_ge_cases q (j + 6 + a + b)) as [Hlt|Hge].
        + rewrite <- Hout, Hq1 in E2 by lia. revert E2. intros [=].
        + destruct (Nat.le_gt_cases (j + 6 + a + b + 6) q) as [Hle|Hgt].
          * rewrite <- Hout, Hq1 in E2 by lia. revert E2. intros [=].
          * assert (wordAt (charCodes "Mexico") (bytes st) (j + 6 + a + b))
              as HM by apply Hm.
            pose proof (wordAt_alpha _ _ _ q HM ltac:(repeat constructor)
                          ltac:(simpl; lia)) as Ha.
            rewrite <- E, Hq1 in Ha. discriminate. }
    assert (parenthAt B q) as Hpq by (split; [exact Hq1'|now apply Hletters]).
    destruct (Hclosed q Hpq) as (r & Hr & Hclose).
    exists r. split; [exact Hr|].
    destruct (applyPatch_cases j a b st r Hm)
      as [(Hin & _ & E)|[(_ & E & p & Hp & Hin)|E]]; fold B B' in E.
    + exfalso. rewrite Hclose in E.
      remember (r - (j + 6 + a + b))%nat as d eqn:Hd.
      assert (d < 6)%nat as Hd6 by lia. clear - Hd6 E.
      do 6 (destruct d as [|d]; [discriminate E|]). lia.
    + exfalso. fold B in Hp, Hin.
      destruct (findParenthStart_spec B) as [[E' _]|(p' & E' & _ & _ & Hfirst)];
        [rewrite E' in Hp; lia|].
      assert (p' = p) as -> by lia.
      assert (p <= q)%nat as Hle.
      { destruct (Nat.le_gt_cases p q) as [?|Hgt]; [assumption|].
        exfalso. now apply (Hfirst q). }
      apply Hnotin. exists p. split; [exact Hp|]. split; [exact Hle|].
      intros j' Hj'. apply Hin. lia.
    + fold B'. now rewrite E.
Qed.

(** X1: the call returns, within [length] iterations of each gap loop,
    on every buffer whose last byte is alphabetic and whose
    parentheticals are all closed (none at all is one such case): no
    erasure reaches the last byte, so a gap loop always finds a letter to
    stop on. *)
Theorem returns_when_last_byte_is_a_letter :
  forall fuel B,
    isAlphaChar (B !! (length B - 1)%nat) = true ->
    closedParentheticals B ->
    (length B <= fuel)%nat ->
    exists st, patchLabelBytesIfNeeded fuel B = Finished st /\
               length (bytes st) = length B /\
               isAlphaChar (bytes st !! (length B - 1)%nat) = true.
Proof.
  intros fuel B Hlast Hclosed Hfuel. unfold patchLabelBytesIfNeeded.
  pose proof (scanFrom_invariant
    (fun _ st => length (bytes st) = length B /\
                 isAlphaChar (bytes st !! (length B - 1)%nat) = true /\
                 closedParentheticals (bytes st))
    fuel (length B)) as H.
  specialize (H ltac:(
    intros j st _ (Hlen & Hl & Hc);
    destruct (foundMatch fuel (bytes st) j) as [[|]|] eqn:E;
    [ apply foundMatch_sound in E as (a & b & E);
      rewrite <- Hlen in Hl;
      destruct (applyPatch_keeps_closed j a b st E Hl Hc) as [Hl' Hc'];
      rewrite Hlen in Hl';
      split; [now rewrite applyPatch_length|now split]
    | now repeat split
    | exact I ])
    (length B) 0%nat (mkState B []) eq_refl ltac:(now repeat split)).
  destruct (scanFrom fuel (length B) 0 (mkState B [])) as [st|st].
  - exists st. destruct H as (H1 & H2 & _). now repeat split.
  - exfalso. destruct H as (j & _ & (Hlen & Hl & _) & Hnone).
    rewrite <- Hlen in Hl.
    destruct (matchPattern_total fuel (bytes st) j Hl ltac:(lia)
                SEARCH_PATTERN_BYTES 0%nat) as [r Hr].
    unfold foundMatch in Hnone. congruence.
Qed.

Lemma returns_when_last_byte_is_a_letter_witness :
  exists st,
    patchLabelBytesIfNeeded 37
      (charCodes "(1) Gulf of Mexico (Gulf of America)s") = Finished st /\
    length (bytes st)
    = length (charCodes "(1) Gulf of Mexico (Gulf of America)s") /\
    isAlphaChar
      (bytes st !! (length (charCodes "(1) Gulf of Mexico (Gulf of America)s")
                    - 1)%nat) = true.
Proof.
  apply (returns_when_last_byte_is_a_letter 37
           (charCodes "(1) Gulf of Mexico (Gulf of America)s")).
  - reflexivity.
  - intros q Hq. exists 35%nat. split; [|reflexivity].
    apply parenthAt_lt in Hq as Hlen. simpl in Hlen.
    destruct (Nat.lt_ge_cases q 35) as [Hlt|Hge]; [exact Hlt|].
    destruct Hq as [Hq _].
    destruct (Nat.eq_dec q 35%nat) as [->|Hne]; [discriminate Hq|].
    destruct (Nat.eq_dec q 36%nat) as [->|Hne']; [discriminate Hq|lia].
  - simpl. lia.
Defined.

(** ** The result on a buffer without parenthetical *)

Lemma scannedBelow_step fuel B st j :
  (length B <= fuel)%nat ->
  scannedBelow B j st ->
  match foundMatch fuel (bytes st) j with
  | Some true => scannedBelow B (S j) (applyPatch j st)
  | Some false => scannedBelow B (S j) st
  | None => True
  end.
Proof.
  intros Hfuel (Hlen & Hno & Hocc & Hrest).
  assert (forall i a b, FuzzyMatchAt B i a b ->
            match foundMatch fuel (bytes st) j with
            | Some true =>
                ((S j <= i)%nat -> FuzzyMatchAt (bytes (applyPatch j st)) i a b)
                /\ ((i < S j)%nat -> PatchedAt (bytes (applyPatch j st)) i a b)
            | Some false =>
                ((S j <= i)%nat -> FuzzyMatchAt (bytes st) i a b) /\
                ((i < S j)%nat -> PatchedAt (bytes st) i a b)
            | None => True
            end) as Htrack.
  { intros i a b Hi. destruct (Hocc i a b Hi) as [H1 H2].
    apply tracked_step; [lia|exact Hno|exact H1|exact H2]. }
  destruct (foundMatch fuel (bytes st) j) as [[|]|] eqn:E; [| |exact I].
  - apply foundMatch_sound in E as (a0 & b0 & Hm).
    destruct (applyPatch_plain j a0 b0 st Hm Hno) as (HS & Hout & _).
    assert (FuzzyMatchAt B j a0 b0) as HmB.
    { apply (phraseAt_local _ (bytes st)); [exact Hm|].
      intros k Hk. simpl length in Hk.
      destruct (Hrest k) as [Ek|(i & a & b & [Hi Hik] & Hlt)];
        [now rewrite Ek|]. exfalso.
      destruct (Hocc i a b Hi) as [_ Hp]. specialize (Hp Hlt).
      destruct (phraseAt_start_unique _ _ i a b j Hp token_no_G_Sweden
                  (FuzzyMatchAt_start _ _ _ _ Hm) ltac:(lia)) as [?|Hge];
        [lia|].
      simpl length in Hge. lia. }
    split; [now rewrite applyPatch_length|].
    split; [now apply (applyPatch_keeps_plain j a0 b0)|].
    split; [exact Htrack|].
    intros k. destruct (Nat.lt_ge_cases k (j + 6 + a0 + b0)) as [Hlt|Hge].
    + rewrite Hout by lia.
      destruct (Hrest k) as [Ek|(i & a & b & Hi & Hlt')]; [now left|].
      right. exists i, a, b. split; [exact Hi|lia].
    + destruct (Nat.le_gt_cases (j + 6 + a0 + b0 + 6) k) as [Hle|Hin].
      * rewrite Hout by lia.
        destruct (Hrest k) as [Ek|(i & a & b & Hi & Hlt')]; [now left|].
        right. exists i, a, b. split; [exact Hi|lia].
      * right. exists j, a0, b0. split; [|lia]. split; [exact HmB|lia].
  - split; [exact Hlen|]. split; [exact Hno|]. split; [exact Htrack|].
    intros k. destruct (Hrest k) as [Ek|(i & a & b & Hi & Hlt')]; [now left|].
    right. exists i, a, b. split; [exact Hi|lia].
Qed.

(** X2: on a buffer in which no opening parenthesis is followed by an
    alphabetic byte, one call, given [length] iterations for each gap
    loop, patches every fuzzy match of the input and changes no byte
    outside the tokens of those matches: the bytes of the buffer are the
    bytes of the input with "Sweden" over each matched "Mexico". *)
Theorem only_matched_tokens_change :
  forall fuel B,
    findParenthStart B = -1 ->
    (length B <= fuel)%nat ->
    length (patched fuel B) = length B /\
    (forall i a b, FuzzyMatchAt B i a b -> PatchedAt (patched fuel B) i a b) /\
    (forall k, patched fuel B !! k = B !! k \/
       exists i a b, inTokenOf B i a b k).
Proof.
  intros fuel B Hno Hfuel.
  pose proof (scanFrom_invariant (scannedBelow B) fuel (length B)
    ltac:(intros j st _; now apply scannedBelow_step)
    (length B) 0%nat (mkState B []) eq_refl) as H.
  specialize (H ltac:(split; [reflexivity|]; split; [exact Hno|];
                      split; [intros i a b Hi; split; [auto|lia]|now left])).
  assert (forall st, (exists j, scannedBelow B j st) ->
            stateOf (patchLabelBytesIfNeeded fuel B) = st ->
            length (bytes st) = length B /\
            forall k, bytes st !! k = B !! k \/
              exists i a b, inTokenOf B i a b k) as Hfinal.
  { intros st (j & Hlen & _ & _ & Hrest) _. split; [exact Hlen|].
    intros k. destruct (Hrest k) as [Ek|(i & a & b & Hi & _)]; [now left|].
    right. now exists i, a, b. }
  unfold patched, patchLabelBytesIfNeeded in *.
  destruct (scanFrom fuel (length B) 0 (mkState B [])) as [st|st] eqn:Erun;
    simpl stateOf in *.
  - destruct (Hfinal st ltac:(now exists (length B)) eq_refl) as [H1 H2].
    split; [exact H1|]. split; [|exact H2].
    intros i a b Hi. destruct H as (_ & _ & Hocc & _).
    apply (Hocc i a b Hi).
    apply FuzzyMatchAt_start, lookup_lt_Some in Hi. exact Hi.
  - destruct H as (j & Hj & Hsc & Hnone).
    destruct (Hfinal st ltac:(now exists j) eq_refl) as [H1 H2].
    split; [exact H1|]. split; [|exact H2].
    intros i a b Hi. destruct Hsc as (Hlen & _ & Hocc & _).
    destruct (Hocc i a b Hi) as [Hb Ha].
    destruct (Nat.le_gt_cases j i) as [Hle|Hgt]; [|now apply Ha].
    exfalso. specialize (Hb Hle).
    destruct (Nat.eq_dec j i) as [->|Hne].
    + rewrite (foundMatch_complete fuel _ i a b) in Hnone;
        [discriminate|lia|exact Hb].
    + apply FuzzyMatchAt_start in Hi as Hlt. apply lookup_lt_Some in Hlt.
      destruct (foundMatch_decided_before fuel (bytes st) j i) as [r Hr];
        [now apply (FuzzyMatchAt_start _ _ a b)|lia|lia|congruence].
Qed.

Lemma only_matched_tokens_change_witness :
  let B := charCodes "Gulf of Mexico, Gulf" ++ [1; 2] ++ charCodes "of"
             ++ [10] ++ charCodes "Mexico City" in
  length (patched 36 B) = length B /\
  (forall i a b, FuzzyMatchAt B i a b -> PatchedAt (patched 36 B) i a b) /\
  (forall k, patched 36 B !! k = B !! k \/ exists i a b, inTokenOf B i a b k).
Proof.
  apply (only_matched_tokens_change 36
           (charCodes "Gulf of Mexico, Gulf" ++ [1; 2] ++ charCodes "of"
              ++ [10] ++ charCodes "Mexico City")).
  - vm_compute. reflexivity.
  - simpl. lia.
Defined.

(** ** Buffers that are handed back untouched *)

(** X17: a buffer that holds no fuzzy match of the phrase at any start
    index is left as it was, byte for byte, with no store issued; when its
    last byte is alphabetic the call returns with it, given [length]
    iterations for each gap loop. *)
Theorem no_match_leaves_buffer :
  forall B,
    (forall i a b, ~ FuzzyMatchAt B i a b) ->
    (forall fuel, stateOf (patchLabelBytesIfNeeded fuel B) = mkState B []) /\
    (forall fuel, isAlphaChar (B !! (length B - 1)%nat) = true ->
       (length B <= fuel)%nat ->
       patchLabelBytesIfNeeded fuel B = Finished (mkState B [])).
Proof.
  intros B Hno. split.
  - now apply unmatched_buffer_untouched.
  - intros fuel Hlast Hfuel.
    apply decided_unmatched_returns; [exact Hno|].
    intros j _. now apply matchPattern_total.
Qed.

Lemma no_match_leaves_buffer_witness :
  stateOf (patchLabelBytesIfNeeded 14 (charCodes "GulfXofXMexico"))
  = mkState (charCodes "GulfXofXMexico") [].
Proof.
  apply (no_match_leaves_buffer (charCodes "GulfXofXMexico")).
  apply noMatchIn_correct. vm_compute. reflexivity.
Defined.

(** X3: a buffer in which "Gulf" stands nowhere is handed back as it was,
    with no store, and the call returns whatever the buffer ends with: no
    candidate gets as far as a gap loop. *)
Theorem returns_untouched_without_Gulf :
  forall fuel B,
    (forall i, ~ wordAt (charCodes "Gulf") B i) ->
    patchLabelBytesIfNeeded fuel B = Finished (mkState B []).
Proof.
  intros fuel B Hno. apply decided_unmatched_returns.
  - intros i a b (Hw & _). now apply (Hno i).
  - intros j _. exists false. apply foundMatch_needs_Gulf, Hno.
Qed.

Lemma returns_untouched_without_Gulf_witness :
  patchLabelBytesIfNeeded 0 (charCodes "Golfo de Mexico (")
  = Finished (mkState (charCodes "Golfo de Mexico (") []).
Proof.
  apply (returns_untouched_without_Gulf 0 (charCodes "Golfo de Mexico (")).
  intros i Hw.
  pose proof (Hw 1%nat 117 eq_refl) as E1.
  pose proof (Hw 0%nat 71 eq_refl) as E0. rewrite Nat.add_0_r in E0.
  apply lookup_lt_Some in E1 as Hlen. simpl in Hlen.
  do 17 (destruct i as [|i]; [discriminate E0 || discriminate E1|]). lia.
Defined.

(** X4: a buffer shorter than the fourteen bytes of the phrase is never
    changed, however far the run gets. *)
Theorem short_buffer_untouched :
  forall fuel B,
    (length B < 14)%nat ->
    stateOf (patchLabelBytesIfNeeded fuel B) = mkState B [].
Proof.
  intros fuel B Hlen. apply unmatched_buffer_untouched.
  intros i a b Hm.
  pose proof (phraseAt_token_bounds (charCodes "Mexico") B i a b
                ltac:(simpl; lia) Hm) as Hb.
  destruct Hm as (_ & [Ha _] & _ & [Hb' _] & _). simpl length in Hb. lia.
Qed.

Lemma short_buffer_untouched_witness :
  stateOf (patchLabelBytesIfNeeded 7 (charCodes "Gulf of Mexi"))
  = mkState (charCodes "Gulf of Mexi") [].
Proof.
  apply (short_buffer_untouched 7 (charCodes "Gulf of Mexi")). simpl. lia.
Defined.

(** X5: two matches the matcher declares in one buffer never overlap: the
    later one starts at or after the end of the earlier one, fourteen
    bytes at least further on. *)
Theorem declared_matches_are_disjoint :
  forall fuel fuel' B i j,
    foundMatch fuel B i = Some true ->
    foundMatch fuel' B j = Some true ->
    (i < j)%nat ->
    exists a b, FuzzyMatchAt B i a b /\
                (i + 12 + a + b <= j)%nat /\ (i + 14 <= j)%nat.
Proof.
  intros fuel fuel' B i j Hi Hj Hlt.
  apply foundMatch_sound in Hi as (a & b & Hi).
  apply foundMatch_sound in Hj as (a' & b' & Hj).
  exists a, b. split; [exact Hi|].
  destruct (phraseAt_start_unique _ _ i a b j Hi token_no_G_Mexico
              (FuzzyMatchAt_start _ _ _ _ Hj) ltac:(lia)) as [?|Hge]; [lia|].
  simpl length in Hge. destruct Hi as (_ & [Ha _] & _ & [Hb _] & _). lia.
Qed.

Lemma declared_matches_are_disjoint_witness :
  exists a b,
    FuzzyMatchAt (charCodes "Gulf  of Mexico Gulf of Mexico") 0 a b /\
    (0 + 12 + a + b <= 16)%nat /\ (0 + 14 <= 16)%nat.
Proof.
  apply (declared_matches_are_disjoint 30 30
           (charCodes "Gulf  of Mexico Gulf of Mexico") 0 16).
  - vm_compute. reflexivity.
  - vm_compute. reflexivity.
  - lia.
Defined.

(** X6: for every pattern, not the one of the source only, the inner loop
    declares a match exactly where the pattern matches in the sense of
    the wildcard-gap marker, given [length] iterations for each gap
    loop. *)
Theorem matcher_refines_wildcard_reading :
  forall fuel B i pattern,
    (length B <= fuel)%nat ->
    matchPattern fuel B i pattern 0 = Some true <->
    exists e, Fuzzy B pattern i e.
Proof.
  intros fuel B i pattern Hfuel. split.
  - intros H. apply matchPattern_sound in H as [e He].
    rewrite Nat.add_0_r in He. now exists e.
  - intros [e He]. apply (matchPattern_complete fuel B i pattern 0%nat e Hfuel).
    now rewrite Nat.add_0_r.
Qed.

Lemma matcher_refines_wildcard_reading_witness :
  matchPattern 5 (charCodes "a-+-b") 0 (charCodes "a b") 0 = Some true <->
  exists e, Fuzzy (charCodes "a-+-b") (charCodes "a b") 0 e.
Proof.
  apply (matcher_refines_wildcard_reading 5 (charCodes "a-+-b") 0
           (charCodes "a b")).
  simpl. lia.
Defined.

(** ** Buffers on which the call does not return *)

(** X9: the call never returns, and stores nothing, on a buffer that ends
    with "Gulf" and one or more non-alphabetic bytes when "Gulf" stands
    nowhere before: the candidate on that last "Gulf" enters the gap loop,
    which reads past the end of the buffer for ever. *)
Theorem hangs_on_trailing_Gulf_and_gap :
  forall fuel pre g,
    g <> [] ->
    Forall (fun c => isAlphaChar (Some c) = false) g ->
    (forall j, (j < length pre)%nat ->
       ~ wordAt (charCodes "Gulf") (pre ++ charCodes "Gulf" ++ g) j) ->
    patchLabelBytesIfNeeded fuel (pre ++ charCodes "Gulf" ++ g)
    = OutOfFuel (mkState (pre ++ charCodes "Gulf" ++ g) []).
Proof.
  intros fuel pre g Hne Hg Hpre. unfold patchLabelBytesIfNeeded.
  set (B := pre ++ charCodes "Gulf" ++ g).
  assert (length B = length pre + 4 + length g)%nat as Hlen
    by (unfold B; rewrite !length_app; simpl; lia).
  assert (0 < length g)%nat as Hg0 by (destruct g; [congruence|simpl; lia]).
  apply (scanFrom_hangs_at fuel (mkState B []) (length pre)); simpl bytes.
  - lia.
  - intros j Hj. apply foundMatch_needs_Gulf, Hpre. lia.
  - apply foundMatch_hangs.
    + apply wordAt_app.
    + lia.
    + intros k Hk. destruct (Nat.lt_ge_cases k (length B)) as [Hlt|Hge];
        [|now rewrite lookup_ge_None_2].
      unfold B. rewrite app_assoc, lookup_app_r
        by (rewrite length_app; simpl; lia).
      rewrite Forall_lookup in Hg.
      destruct (lookup_lt_is_Some_2 g
                  (k - length (pre ++ charCodes "Gulf"))) as [c Hc].
      * rewrite length_app. simpl. lia.
      * rewrite Hc. now apply (Hg _ c Hc).
Qed.

Lemma hangs_on_trailing_Gulf_and_gap_witness :
  patchLabelBytesIfNeeded 1000 (charCodes "Golfo, " ++ charCodes "Gulf" ++ [46; 10])
  = OutOfFuel (mkState (charCodes "Golfo, " ++ charCodes "Gulf" ++ [46; 10]) []).
Proof.
  apply (hangs_on_trailing_Gulf_and_gap 1000 (charCodes "Golfo, ") [46; 10]).
  - discriminate.
  - repeat constructor.
  - intros j Hj Hw. simpl in Hj.
    pose proof (Hw 1%nat 117 eq_refl) as E1.
    do 7 (destruct j as [|j]; [discriminate E1|]). lia.
Defined.

(** ** [replaceAll] *)

Lemma startsWith_spec search : forall s,
  startsWith search s = true <-> exists post, s = search ++ post.
Proof.
  induction search as [|x search IH]; intros s; simpl.
  - split; [intros _; now exists s|reflexivity].
  - destruct s as [|c s].
    + split; [discriminate|]. intros [post H]. discriminate H.
    + rewrite andb_true_iff, Z.eqb_eq, IH. split.
      * intros [-> [post ->]]. now exists post.
      * intros [post H]. injection H as -> ->. split; [reflexivity|].
        now exists post.
Qed.

Lemma occursIn_drop search s :
  occursIn search s <-> exists k, startsWith search (drop k s) = true.
Proof.
  split.
  - intros (pre & post & ->). exists (length pre).
    rewrite drop_app_length. apply startsWith_spec. now exists post.
  - intros [k H]. apply startsWith_spec in H as [post H].
    exists (take k s), post. now rewrite <- H, take_drop.
Qed.

Section ReplaceAll.

Variables search replacement : list Z.
Hypothesis search_nonempty : search <> [].

Lemma replaceAllFrom_skip : forall s skip,
  replaceAllFrom search replacement skip s
  = replaceAllFrom search replacement 0 (drop skip s).
Proof.
  induction s as [|c s IH]; intros [|skip]; try reflexivity.
  simpl. apply IH.
Qed.

(** At an occurrence the scan puts the replacement and goes on after the
    occurrence. *)
Lemma replaceAllFrom_found s :
  startsWith search s = true ->
  replaceAllFrom search replacement 0 s
  = replacement
      ++ replaceAllFrom search replacement 0 (drop (length search) s).
Proof.
  intros H. destruct s as [|c s].
  - destruct search; [congruence|discriminate H].
  - cbn [replaceAllFrom]. rewrite H, replaceAllFrom_skip. f_equal. f_equal.
    destruct search as [|x search']; [congruence|].
    simpl. now rewrite Nat.sub_0_r.
Qed.

(** Elsewhere it copies one code unit. *)
Lemma replaceAllFrom_copied c s :
  startsWith search (c :: s) = false ->
  replaceAllFrom search replacement 0 (c :: s)
  = c :: replaceAllFrom search replacement 0 s.
Proof. intros H. cbn [replaceAllFrom]. now rewrite H. Qed.

Lemma startsWith_length s :
  startsWith search s = true -> (length search <= length s)%nat.
Proof.
  intros H. apply startsWith_spec in H as [post ->]. rewrite length_app. lia.
Qed.

(** A string in which [search] does not occur comes back as it is. *)
Lemma replaceAllFrom_absent : forall s,
  ~ occursIn search s -> replaceAllFrom search replacement 0 s = s.
Proof.
  induction s as [|c s IH]; intros Hno; [reflexivity|].
  rewrite replaceAllFrom_copied.
  - f_equal. apply IH. intros (pre & post & ->).
    apply Hno. now exists (c :: pre), post.
  - destruct (startsWith search (c :: s)) eqn:E; [|reflexivity].
    exfalso. apply Hno. apply startsWith_spec in E as [post ->].
    now exists [], post.
Qed.

(** A replacement as long as [search] keeps the length. *)
Lemma replaceAllFrom_same_length :
  length replacement = length search ->
  forall n s, (length s <= n)%nat ->
    length (replaceAllFrom search replacement 0 s) = length s.
Proof.
  intros Hlen. induction n as [|n IH]; intros s Hn.
  - destruct s; [reflexivity|simpl in Hn; lia].
  - destruct s as [|c s]; [reflexivity|].
    destruct (startsWith search (c :: s)) eqn:E.
    + rewrite (replaceAllFrom_found _ E), length_app, IH.
      * apply startsWith_length in E. rewrite length_drop. lia.
      * rewrite length_drop. simpl in *.
        destruct search; [congruence|simpl; lia].
    + rewrite (replaceAllFrom_copied _ _ E). simpl. f_equal. apply IH.
      simpl in Hn. lia.
Qed.

End ReplaceAll.

(** Taking the occurrences out never makes the string longer, and makes
    it shorter when there is one. *)
Lemma replaceAllFrom_removed search :
  search <> [] ->
  forall n s, (length s <= n)%nat ->
    (length (replaceAllFrom search [] 0 s) <= length s)%nat /\
    (occursIn search s ->
     (length (replaceAllFrom search [] 0 s) < length s)%nat).
Proof.
  intros Hne. induction n as [|n IH]; intros s Hn.
  - destruct s; [|simpl in Hn; lia]. split; [reflexivity|].
    intros (pre & post & H). destruct pre; [|discriminate H].
    destruct search; [congruence|discriminate H].
  - destruct s as [|c s].
    { split; [reflexivity|]. intros (pre & post & H).
      destruct pre; [|discriminate H].
      destruct search; [congruence|discriminate H]. }
    destruct (startsWith search (c :: s)) eqn:E.
    + rewrite (replaceAllFrom_found search [] Hne _ E). simpl app.
      pose proof (startsWith_length search _ E) as Hl.
      assert (0 < length search)%nat
        by (destruct search; [congruence|simpl; lia]).
      destruct (IH (drop (length search) (c :: s))) as [H1 _].
      { rewrite length_drop. simpl in *. lia. }
      rewrite length_drop in H1. split; [lia|]. intros _. lia.
    + rewrite (replaceAllFrom_copied search [] _ _ E). simpl length.
      destruct (IH s ltac:(simpl in Hn; lia)) as [H1 H2].
      split; [lia|]. intros (pre & post & H).
      destruct pre as [|c' pre].
      * exfalso. assert (startsWith search (c :: s) = true) as E'
          by (apply startsWith_spec; now exists post).
        congruence.
      * injection H as -> ->.
        assert (occursIn search (pre ++ search ++ post)) as Hocc
          by (now exists pre, post).
        specialize (H2 Hocc). lia.
Qed.

(** ** The text the JSON hook hands on *)

Lemma phrase_nonempty : charCodes "Gulf of Mexico" <> [].
Proof. intros [=]. Qed.

(** A word without G that heads the rewritten string headed the string:
    the scan had copied it. *)
Lemma copied_prefix : forall w l,
  71 ∉ w ->
  startsWith w
    (replaceAllFrom (charCodes "Gulf of Mexico") (charCodes "Gulf of Sweden")
       0 l) = true ->
  startsWith w l = true.
Proof.
  induction w as [|x w IH]; intros l Hw H; [reflexivity|].
  apply not_elem_of_cons in Hw as [Hx Hw].
  destruct l as [|c l]; [discriminate H|].
  destruct (startsWith (charCodes "Gulf of Mexico") (c :: l)) eqn:E.
  - rewrite (replaceAllFrom_found _ (charCodes "Gulf of Sweden") phrase_nonempty _ E) in H.
    simpl in H. apply andb_true_iff in H as [H _]. apply Z.eqb_eq in H.
    exfalso. apply Hx. now rewrite H.
  - rewrite (replaceAllFrom_copied _ (charCodes "Gulf of Sweden") _ _ E) in H. simpl in H |- *.
    apply andb_true_iff in H as [H1 H2]. rewrite H1. simpl. now apply IH.
Qed.

(** The phrase heads no suffix of what [replaceAll] returns. *)
Lemma replaced_phrase_absent : forall n l k,
  (length l <= n)%nat ->
  startsWith (charCodes "Gulf of Mexico")
    (drop k (replaceAllFrom (charCodes "Gulf of Mexico")
               (charCodes "Gulf of Sweden") 0 l)) = false.
Proof.
  induction n as [|n IH]; intros l k Hn.
  - destruct l; [|simpl in Hn; lia]. now destruct k.
  - destruct l as [|c l]; [now destruct k|].
    destruct (startsWith (charCodes "Gulf of Mexico") (c :: l)) eqn:E.
    + rewrite (replaceAllFrom_found _ (charCodes "Gulf of Sweden") phrase_nonempty _ E).
      pose proof (startsWith_length _ _ E) as Hl. simpl length in Hl.
      do 14 (destruct k as [|k]; [reflexivity|]).
      change (drop (S (S (S (S (S (S (S (S (S (S (S (S (S (S k))))))))))))))
                (charCodes "Gulf of Sweden" ++ ?x)) with (drop k x).
      apply IH. rewrite length_drop. simpl in *. lia.
    + rewrite (replaceAllFrom_copied _ (charCodes "Gulf of Sweden") _ _ E). destruct k as [|k].
      * cbn [drop].
        destruct (startsWith (charCodes "Gulf of Mexico")
                    (c :: replaceAllFrom (charCodes "Gulf of Mexico")
                            (charCodes "Gulf of Sweden") 0 l)) eqn:E';
          [|reflexivity].
        exfalso. simpl in E'. apply andb_true_iff in E' as [Hc E'].
        change (startsWith (charCodes "ulf of Mexico")
                  (replaceAllFrom (charCodes "Gulf of Mexico")
                     (charCodes "Gulf of Sweden") 0 l) = true) in E'.
        apply copied_prefix in E'.
        -- simpl in E. rewrite Hc in E. simpl in E.
           change (startsWith (charCodes "ulf of Mexico") l = false) in E.
           congruence.
        -- intros Hin. repeat (apply elem_of_cons in Hin as [[=]|Hin]).
           now apply elem_of_nil in Hin.
      * cbn [drop]. apply IH. simpl in Hn. lia.
Qed.

Lemma replaceAll_nonempty search replacement s :
  search <> [] ->
  replaceAll search replacement s = replaceAllFrom search replacement 0 s.
Proof. intros H. destruct search; [congruence|reflexivity]. Qed.

Lemma parenthetical_nonempty : charCodes " (Gulf of America)" <> [].
Proof. intros [=]. Qed.

(** X10: whatever JSON text the hook is given, the text it hands to the
    original parsing function holds "Gulf of Mexico" nowhere: neither an
    occurrence the scan has missed, nor one put together from a
    replacement and the text around it. *)
Theorem json_hook_leaves_no_Mexico :
  forall (B R : Type) (originalJsonParsingFunction : list Z -> B -> R) a b,
    jsonParsingHook originalJsonParsingFunction a b
    = originalJsonParsingFunction (rewrittenJson a) b /\
    ~ occursIn (charCodes "Gulf of Mexico") (rewrittenJson a).
Proof.
  intros B R original a b. split; [reflexivity|].
  unfold rewrittenJson.
  rewrite (replaceAll_nonempty (charCodes "Gulf of Mexico"))
    by exact phrase_nonempty.
  intros Hocc. apply occursIn_drop in Hocc as [k Hk].
  now rewrite (replaced_phrase_absent _ _ k (Nat.le_refl _)) in Hk.
Qed.

(** X11: the hook changes the JSON text exactly when " (Gulf of America)"
    or "Gulf of Mexico" stands in it, and never makes it longer. *)
Theorem json_hook_changes_only_texts_with_the_phrases :
  forall a,
    (length (rewrittenJson a) <= length a)%nat /\
    (rewrittenJson a = a <->
     ~ occursIn (charCodes " (Gulf of America)") a /\
     ~ occursIn (charCodes "Gulf of Mexico") a).
Proof.
  intros a. unfold rewrittenJson.
  rewrite (replaceAll_nonempty (charCodes "Gulf of Mexico"))
    by exact phrase_nonempty.
  rewrite (replaceAll_nonempty (charCodes " (Gulf of America)"))
    by exact parenthetical_nonempty.
  set (a1 := replaceAllFrom (charCodes " (Gulf of America)") [] 0 a).
  assert (length (replaceAllFrom (charCodes "Gulf of Mexico")
                    (charCodes "Gulf of Sweden") 0 a1) = length a1) as Hsame.
  { apply (replaceAllFrom_same_length (charCodes "Gulf of Mexico")
             (charCodes "Gulf of Sweden") phrase_nonempty eq_refl (length a1)).
    lia. }
  destruct (replaceAllFrom_removed _ parenthetical_nonempty (length a) a
              (Nat.le_refl _)) as [Hle Hlt].
  fold a1 in Hle, Hlt. split; [lia|]. split.
  - intros E. split.
    + intros Hocc. specialize (Hlt Hocc). rewrite E in Hsame. lia.
    + intros Hocc. apply occursIn_drop in Hocc as [k Hk]. rewrite <- E in Hk.
      now rewrite (replaced_phrase_absent _ _ k (Nat.le_refl _)) in Hk.
  - intros [Hq Hp]. unfold a1.
    rewrite (replaceAllFrom_absent _ [] _ Hq).
    now apply replaceAllFrom_absent.
Qed.

(** ** The properties of [_] *)

Lemma getProperty_In ns key v :
  NoDup (map fst ns) -> In (key, v) ns -> getProperty ns key = v.
Proof.
  induction ns as [|[k v'] ns IH]; intros Hnd Hin; [destruct Hin|].
  simpl in *. apply NoDup_cons in Hnd as [Hk Hnd].
  destruct Hin as [[= -> ->]|Hin].
  - now rewrite String.eqb_refl.
  - destruct (String.eqb_spec k key) as [->|Hne]; [|now apply IH].
    exfalso. apply Hk. apply list_elem_of_In, in_map_iff.
    now exists (key, v).
Qed.

Lemma getProperty_setProperty_eq ns key v :
  getProperty (setProperty ns key v) key = v.
Proof.
  induction ns as [|[k v'] ns IH]; simpl.
  - now rewrite String.eqb_refl.
  - destruct (String.eqb_spec k key) as [->|Hne]; simpl.
    + now rewrite String.eqb_refl.
    + destruct (String.eqb_spec k key); [congruence|exact IH].
Qed.

Lemma getProperty_setProperty_ne ns key key' v :
  key' <> key ->
  getProperty (setProperty ns key v) key' = getProperty ns key'.
Proof.
  intros Hne. induction ns as [|[k v'] ns IH]; simpl.
  - destruct (String.eqb_spec key key'); [congruence|reflexivity].
  - destruct (String.eqb_spec k key) as [->|Hk]; simpl.
    + destruct (String.eqb_spec key key'); [congruence|reflexivity].
    + now rewrite IH.
Qed.

(** A store keeps the keys and their order, but for a new key, which
    comes last. *)
Lemma keys_setProperty_old ns key v :
  In key (map fst ns) -> map fst (setProperty ns key v) = map fst ns.
Proof.
  induction ns as [|[k v'] ns IH]; intros Hin; [destruct Hin|].
  simpl in *. destruct (String.eqb_spec k key) as [->|Hk]; [reflexivity|].
  simpl. f_equal. apply IH. destruct Hin; [congruence|assumption].
Qed.

Lemma keys_setProperty_new ns key v :
  ~ In key (map fst ns) ->
  map fst (setProperty ns key v) = map fst ns ++ [key].
Proof.
  induction ns as [|[k v'] ns IH]; intros Hin; [reflexivity|].
  simpl in *. destruct (String.eqb_spec k key) as [->|Hk].
  - exfalso. apply Hin. now left.
  - simpl. f_equal. apply IH. intros H. apply Hin. now right.
Qed.

Lemma keys_setProperty_incl ns key v k :
  In k (map fst ns) -> In k (map fst (setProperty ns key v)).
Proof.
  intros H. destruct (in_dec string_dec key (map fst ns)) as [Hin|Hin].
  - now rewrite keys_setProperty_old.
  - rewrite keys_setProperty_new by exact Hin. apply in_or_app. now left.
Qed.

Lemma NoDup_setProperty ns key v :
  NoDup (map fst ns) -> NoDup (map fst (setProperty ns key v)).
Proof.
  intros Hnd. destruct (in_dec string_dec key (map fst ns)) as [Hin|Hin].
  - now rewrite keys_setProperty_old.
  - rewrite keys_setProperty_new by exact Hin.
    apply NoDup_app. split; [exact Hnd|]. split.
    + intros x Hx Hx'. apply list_elem_of_In in Hx.
      apply list_elem_of_singleton in Hx'. congruence.
    + apply NoDup_singleton.
Qed.

(** What [findFunction] returns, entry by entry: the first key whose
    value passes the test, after values that all fail it. *)
Lemma findFunction_spec rep : forall ns,
  match findFunction ns rep with
  | Found key =>
      exists before v after,
        ns = before ++ (key, v) :: after /\
        hasSource rep v = Some true /\
        Forall (fun e => hasSource rep (snd e) = Some false) before
  | NotFound => Forall (fun e => hasSource rep (snd e) = Some false) ns
  | FindThrows =>
      exists before key v after,
        ns = before ++ (key, v) :: after /\
        hasSource rep v = None /\
        Forall (fun e => hasSource rep (snd e) = Some false) before
  end.
Proof.
  induction ns as [|[k v] ns IH]; simpl; [constructor|].
  destruct (hasSource rep v) as [[|]|] eqn:E.
  - exists [], v, ns. repeat split; [exact E|constructor].
  - destruct (findFunction ns rep).
    + destruct IH as (before & v' & after & -> & H1 & H2).
      exists ((k, v) :: before), v', after.
      repeat split; [exact H1|]. now constructor.
    + now constructor.
    + destruct IH as (before & k' & v' & after & -> & H1 & H2).
      exists ((k, v) :: before), k', v', after.
      repeat split; [exact H1|]. now constructor.
  - exists [], k, v, ns. repeat split; [exact E|constructor].
Qed.

Lemma hasSource_true rep v :
  hasSource rep v = Some true ->
  truthy v = true /\ toStringOf v = ToStringReturns rep.
Proof.
  unfold hasSource. destruct (truthy v); [|discriminate].
  destruct (toStringOf v) as [|s| |]; try discriminate.
  intros [= H]. apply String.eqb_eq in H. now subst.
Qed.

(** A store over a value that fails the test, of a value that fails it,
    changes no lookup. *)
Lemma findFunction_setProperty rep key v : forall ns,
  In key (map fst ns) ->
  hasSource rep (getProperty ns key) = Some false ->
  hasSource rep v = Some false ->
  findFunction (setProperty ns key v) rep = findFunction ns rep.
Proof.
  induction ns as [|[k v'] ns IH]; intros Hin Hold Hnew; [destruct Hin|].
  simpl in *. destruct (String.eqb_spec k key) as [->|Hk]; simpl.
  - now rewrite Hold, Hnew.
  - destruct (hasSource rep v') as [[|]|]; try reflexivity.
    apply IH; [|exact Hold|exact Hnew].
    destruct Hin as [?|?]; [congruence|assumption].
Qed.

Lemma hook_sources_differ :
  String.eqb JSON_HOOK_SOURCE LABEL_PROCESSING_SOURCE = false /\
  String.eqb JSON_PARSING_SOURCE LABEL_PROCESSING_SOURCE = false.
Proof. split; vm_compute; reflexivity. Qed.

(** X12: the name [findFunction] returns is the first key of [_], in the
    order of [Object.keys], whose value is truthy and has a [toString]
    that returns exactly the text looked for, and [_[name]] is that
    value; [undefined] is returned only when the test fails on every
    value. *)
Theorem findFunction_returns_first_function_with_the_source :
  forall ns stringRepresentation,
    NoDup (map fst ns) ->
    match findFunction ns stringRepresentation with
    | Found name =>
        exists before after,
          ns = before ++ (name, getProperty ns name) :: after /\
          truthy (getProperty ns name) = true /\
          toStringOf (getProperty ns name)
          = ToStringReturns stringRepresentation /\
          Forall (fun e => hasSource stringRepresentation (snd e) = Some false)
            before
    | NotFound =>
        forall key v, In (key, v) ns ->
          toStringOf v <> ToStringReturns stringRepresentation \/
          truthy v = false
    | FindThrows => exists key v, In (key, v) ns /\ toStringOf v = ToStringThrows
    end.
Proof.
  intros ns rep Hnd. pose proof (findFunction_spec rep ns) as H.
  destruct (findFunction ns rep) as [name| |].
  - destruct H as (before & v & after & E & Hv & Hbefore).
    assert (getProperty ns name = v) as ->.
    { apply getProperty_In; [exact Hnd|]. rewrite E. apply in_elt. }
    exists before, after. apply hasSource_true in Hv as [Ht Hs]. now repeat split.
  - intros key v Hin. rewrite Forall_forall in H.
    specialize (H (key, v) ltac:(now apply list_elem_of_In)). simpl in H.
    unfold hasSource in H. destruct (truthy v); [|now right]. left.
    intros E. rewrite E, String.eqb_refl in H. discriminate.
  - destruct H as (before & key & v & after & -> & Hv & _).
    exists key, v. split; [apply in_elt|].
    unfold hasSource in Hv. destruct (truthy v); [|discriminate].
    now destruct (toStringOf v).
Qed.

Lemma findFunction_returns_first_function_with_the_source_witness :
  exists before after,
    [("a", Host 0 ToStringMissing);
     ("gd", Host 1 (ToStringReturns LABEL_PROCESSING_SOURCE));
     ("N8a", Host 2 (ToStringReturns LABEL_PROCESSING_SOURCE))]%string
    = before
      ++ ("gd"%string,
          getProperty
            [("a", Host 0 ToStringMissing);
             ("gd", Host 1 (ToStringReturns LABEL_PROCESSING_SOURCE));
             ("N8a", Host 2 (ToStringReturns LABEL_PROCESSING_SOURCE))]%string
            "gd") :: after /\
    truthy (getProperty
              [("a", Host 0 ToStringMissing);
               ("gd", Host 1 (ToStringReturns LABEL_PROCESSING_SOURCE));
               ("N8a", Host 2 (ToStringReturns LABEL_PROCESSING_SOURCE))]%string
              "gd") = true /\
    toStringOf (getProperty
              [("a", Host 0 ToStringMissing);
               ("gd", Host 1 (ToStringReturns LABEL_PROCESSING_SOURCE));
               ("N8a", Host 2 (ToStringReturns LABEL_PROCESSING_SOURCE))]%string
              "gd") = ToStringReturns LABEL_PROCESSING_SOURCE /\
    Forall (fun e => hasSource LABEL_PROCESSING_SOURCE (snd e) = Some false)
      before.
Proof.
  apply (findFunction_returns_first_function_with_the_source
           [("a", Host 0 ToStringMissing);
            ("gd", Host 1 (ToStringReturns LABEL_PROCESSING_SOURCE));
            ("N8a", Host 2 (ToStringReturns LABEL_PROCESSING_SOURCE))]%string
           LABEL_PROCESSING_SOURCE).
  simpl. repeat (apply NoDup_cons_2; [intros H;
    repeat (apply elem_of_cons in H as [[=]|H]); now apply elem_of_nil in H|]).
  apply NoDup_nil_2.
Defined.

Lemma findFunction_Found rep ns name :
  NoDup (map fst ns) ->
  findFunction ns rep = Found name ->
  In name (map fst ns) /\ hasSource rep (getProperty ns name) = Some true.
Proof.
  intros Hnd H. pose proof (findFunction_spec rep ns) as Hs. rewrite H in Hs.
  destruct Hs as (before & v & after & E & Hv & _).
  assert (In (name, v) ns) as Hin by (rewrite E; apply in_elt).
  split.
  - apply in_map_iff. now exists (name, v).
  - now rewrite (getProperty_In ns name v Hnd Hin).
Qed.

Lemma hasSource_JsonHook original :
  hasSource LABEL_PROCESSING_SOURCE (JsonHook original) = Some false.
Proof.
  change (hasSource LABEL_PROCESSING_SOURCE (JsonHook original))
    with (Some (String.eqb JSON_HOOK_SOURCE LABEL_PROCESSING_SOURCE)).
  now rewrite (proj1 hook_sources_differ).
Qed.

(** X13: when both functions are found in [_], the script runs to its
    end and stores each hook under the name found, around the value that
    was there; every other property of [_] keeps its value, and the keys
    and their order are the same. *)
Theorem script_installs_both_hooks :
  forall ns jsonName labelName,
    NoDup (map fst ns) ->
    findFunction ns JSON_PARSING_SOURCE = Found jsonName ->
    findFunction ns LABEL_PROCESSING_SOURCE = Found labelName ->
    exists ns',
      script ns = Installed ns' /\
      map fst ns' = map fst ns /\
      getProperty ns' jsonName = JsonHook (getProperty ns jsonName) /\
      getProperty ns' labelName = LabelHook (getProperty ns labelName) /\
      forall key, key <> jsonName -> key <> labelName ->
        getProperty ns' key = getProperty ns key.
Proof.
  intros ns kj kl Hnd Hj Hl.
  destruct (findFunction_Found _ _ _ Hnd Hj) as [Hinj Hsj].
  destruct (findFunction_Found _ _ _ Hnd Hl) as [Hinl Hsl].
  assert (hasSource LABEL_PROCESSING_SOURCE (getProperty ns kj) = Some false)
    as Hjl.
  { apply hasSource_true in Hsj as [Ht Hs]. unfold hasSource.
    now rewrite Ht, Hs, (proj2 hook_sources_differ). }
  assert (kl <> kj) as Hne by (intros ->; congruence).
  set (ns1 := setProperty ns kj (JsonHook (getProperty ns kj))).
  assert (findFunction ns1 LABEL_PROCESSING_SOURCE = Found kl) as Hl1.
  { unfold ns1. rewrite findFunction_setProperty;
      [exact Hl|exact Hinj|exact Hjl|apply hasSource_JsonHook]. }
  exists (setProperty ns1 kl (LabelHook (getProperty ns1 kl))).
  split; [unfold script; rewrite Hj; simpl propertyKey; fold ns1;
          now rewrite Hl1|].
  assert (map fst ns1 = map fst ns) as Hk1
    by (now apply keys_setProperty_old).
  split; [rewrite keys_setProperty_old; [exact Hk1|now rewrite Hk1]|].
  split; [|split].
  - rewrite getProperty_setProperty_ne by congruence.
    apply getProperty_setProperty_eq.
  - rewrite getProperty_setProperty_eq. f_equal.
    now apply getProperty_setProperty_ne.
  - intros key H1 H2. rewrite getProperty_setProperty_ne by exact H2.
    unfold ns1. now rewrite getProperty_setProperty_ne by exact H1.
Qed.

Lemma script_installs_both_hooks_witness :
  let ns :=
    [("a", Falsy);
     ("N8a", Host 1 (ToStringReturns JSON_PARSING_SOURCE));
     ("gd", Host 2 (ToStringReturns LABEL_PROCESSING_SOURCE));
     ("b", Host 3 ToStringThrows)]%string in
  exists ns',
    script ns = Installed ns' /\
    map fst ns' = map fst ns /\
    getProperty ns' "N8a" = JsonHook (getProperty ns "N8a") /\
    getProperty ns' "gd" = LabelHook (getProperty ns "gd") /\
    forall key, key <> "N8a"%string -> key <> "gd"%string ->
      getProperty ns' key = getProperty ns key.
Proof.
  apply (script_installs_both_hooks
           [("a", Falsy);
            ("N8a", Host 1 (ToStringReturns JSON_PARSING_SOURCE));
            ("gd", Host 2 (ToStringReturns LABEL_PROCESSING_SOURCE));
            ("b", Host 3 ToStringThrows)]%string
           "N8a" "gd").
  - simpl. repeat (apply NoDup_cons_2; [intros H;
      repeat (apply elem_of_cons in H as [[=]|H]); now apply elem_of_nil in H|]).
    apply NoDup_nil_2.
  - vm_compute. reflexivity.
  - vm_compute. reflexivity.
Defined.

(** One lookup and the store that follows it: a property other than
    "undefined" is changed only if it is the one found, which then holds
    the hook around its former value. *)
Lemma store_after_lookup ns rep (wrap : Value -> Value) key :
  NoDup (map fst ns) ->
  key <> "undefined"%string ->
  let name := propertyKey (findFunction ns rep) in
  let ns1 := setProperty ns name (wrap (getProperty ns name)) in
  getProperty ns1 key = getProperty ns key \/
  (getProperty ns1 key = wrap (getProperty ns key) /\
   toStringOf (getProperty ns key) = ToStringReturns rep).
Proof.
  intros Hnd Hkey name ns1. unfold ns1.
  destruct (String.eqb_spec key name) as [->|Hne].
  - right. split; [apply getProperty_setProperty_eq|].
    unfold name in *. destruct (findFunction ns rep) as [k| |] eqn:E;
      simpl in *; try congruence.
    destruct (findFunction_Found _ _ _ Hnd E) as [_ Hs].
    now apply hasSource_true in Hs.
  - left. now apply getProperty_setProperty_ne.
Qed.

(** The script with its two stores named: the first is made unless the
    first lookup throws, the second unless the second lookup throws. *)
Lemma script_stores ns :
  script ns =
  let name1 := propertyKey (findFunction ns JSON_PARSING_SOURCE) in
  let ns1 := setProperty ns name1 (JsonHook (getProperty ns name1)) in
  let name2 := propertyKey (findFunction ns1 LABEL_PROCESSING_SOURCE) in
  let ns2 := setProperty ns1 name2 (LabelHook (getProperty ns1 name2)) in
  match findFunction ns JSON_PARSING_SOURCE with
  | FindThrows => Stopped ns
  | _ => match findFunction ns1 LABEL_PROCESSING_SOURCE with
         | FindThrows => Stopped ns1
         | _ => Installed ns2
         end
  end.
Proof.
  unfold script. cbv zeta.
  destruct (findFunction ns JSON_PARSING_SOURCE); cbn [propertyKey];
    try reflexivity;
    destruct (findFunction _ LABEL_PROCESSING_SOURCE); reflexivity.
Qed.

(** X14: however the script ends, no property of [_] is lost, the key
    "undefined" included, and every property other than "undefined"
    either keeps its value or is one of the two functions looked for,
    replaced by the hook that holds it. *)
Theorem script_keeps_every_other_property :
  forall ns key,
    NoDup (map fst ns) ->
    let ns' := namespaceOf (script ns) in
    (In key (map fst ns) -> In key (map fst ns')) /\
    (key <> "undefined"%string ->
     getProperty ns' key = getProperty ns key \/
     (getProperty ns' key = JsonHook (getProperty ns key) /\
      toStringOf (getProperty ns key) = ToStringReturns JSON_PARSING_SOURCE) \/
     (getProperty ns' key = LabelHook (getProperty ns key) /\
      toStringOf (getProperty ns key)
      = ToStringReturns LABEL_PROCESSING_SOURCE)).
Proof.
  intros ns key Hnd ns'. unfold ns'. clear ns'.
  pose proof (fun Hkey =>
    store_after_lookup ns JSON_PARSING_SOURCE JsonHook key Hnd Hkey) as H1.
  cbv zeta in H1.
  set (name1 := propertyKey (findFunction ns JSON_PARSING_SOURCE)) in *.
  set (ns1 := setProperty ns name1 (JsonHook (getProperty ns name1))) in *.
  assert (NoDup (map fst ns1)) as Hnd1 by (now apply NoDup_setProperty).
  pose proof (fun Hkey =>
    store_after_lookup ns1 LABEL_PROCESSING_SOURCE LabelHook key Hnd1 Hkey)
    as H2.
  cbv zeta in H2.
  set (name2 := propertyKey (findFunction ns1 LABEL_PROCESSING_SOURCE)) in *.
  set (ns2 := setProperty ns1 name2 (LabelHook (getProperty ns1 name2))) in *.
  assert (In key (map fst ns) -> In key (map fst ns1)) as K1
    by apply keys_setProperty_incl.
  assert (In key (map fst ns1) -> In key (map fst ns2)) as K2
    by apply keys_setProperty_incl.
  assert (key <> "undefined"%string ->
     getProperty ns1 key = getProperty ns key \/
     (getProperty ns1 key = JsonHook (getProperty ns key) /\
      toStringOf (getProperty ns key) = ToStringReturns JSON_PARSING_SOURCE) \/
     (getProperty ns1 key = LabelHook (getProperty ns key) /\
      toStringOf (getProperty ns key)
      = ToStringReturns LABEL_PROCESSING_SOURCE)) as R1
    by (intros Hkey; destruct (H1 Hkey) as [?|?]; [now left|right; now left]).
  assert (key <> "undefined"%string ->
     getProperty ns2 key = getProperty ns key \/
     (getProperty ns2 key = JsonHook (getProperty ns key) /\
      toStringOf (getProperty ns key) = ToStringReturns JSON_PARSING_SOURCE) \/
     (getProperty ns2 key = LabelHook (getProperty ns key) /\
      toStringOf (getProperty ns key)
      = ToStringReturns LABEL_PROCESSING_SOURCE)) as R2.
  { intros Hkey. destruct (H2 Hkey) as [E|[E Hs]].
    - rewrite E. exact (R1 Hkey).
    - destruct (H1 Hkey) as [E1|[E1 _]].
      + right. right. now rewrite E, <- E1.
      + exfalso. rewrite E1 in Hs.
        change (ToStringReturns JSON_HOOK_SOURCE
                = ToStringReturns LABEL_PROCESSING_SOURCE) in Hs.
        pose proof (proj1 hook_sources_differ) as Hd.
        apply String.eqb_neq in Hd. apply Hd. congruence. }
  rewrite script_stores. cbv zeta. fold name1. fold ns1. fold name2. fold ns2.
  clearbody ns2. clear H2 name2. clearbody ns1. clear H1 name1.
  destruct (findFunction ns JSON_PARSING_SOURCE);
    [ | |split; [trivial|now left]];
    (destruct (findFunction ns1 LABEL_PROCESSING_SOURCE);
     (split; [ first [exact (fun H => K2 (K1 H)) | exact K1]
             | first [exact R2 | exact R1] ])).
Qed.

Lemma script_keeps_every_other_property_witness :
  let ns :=
    [("a", Host 0 (ToStringReturns LABEL_PROCESSING_SOURCE));
     ("undefined", Host 1 ToStringOther)]%string in
  let ns' := namespaceOf (script ns) in
  (In "undefined"%string (map fst ns) -> In "undefined"%string (map fst ns')) /\
  ("undefined"%string <> "undefined"%string ->
   getProperty ns' "undefined" = getProperty ns "undefined" \/
   (getProperty ns' "undefined" = JsonHook (getProperty ns "undefined") /\
    toStringOf (getProperty ns "undefined")
    = ToStringReturns JSON_PARSING_SOURCE) \/
   (getProperty ns' "undefined" = LabelHook (getProperty ns "undefined") /\
    toStringOf (getProperty ns "undefined")
    = ToStringReturns LABEL_PROCESSING_SOURCE)).
Proof.
  apply (script_keeps_every_other_property
           [("a", Host 0 (ToStringReturns LABEL_PROCESSING_SOURCE));
            ("undefined", Host 1 ToStringOther)]%string "undefined").
  simpl. repeat (apply NoDup_cons_2; [intros H;
    repeat (apply elem_of_cons in H as [[=]|H]); now apply elem_of_nil in H|]).
  apply NoDup_nil_2.
Defined.

(** ** The label hook *)

Lemma patched_length fuel B : length (patched fuel B) = length B.
Proof.
  unfold patched, patchLabelBytesIfNeeded.
  apply (scanFrom_preserves (fun st => length (bytes st) = length B)).
  - intros j st Hlen Hm. now rewrite applyPatch_length.
  - reflexivity.
Qed.

(** On a buffer without parenthetical whose last byte is alphabetic the
    call returns, given [length] iterations for each gap loop: the copy
    puts letters over letters, so the last byte stays one. *)
Lemma plain_letter_ended_returns fuel B :
  findParenthStart B = -1 ->
  isAlphaChar (B !! (length B - 1)%nat) = true ->
  (length B <= fuel)%nat ->
  exists st, patchLabelBytesIfNeeded fuel B = Finished st.
Proof.
  intros Hno Hlast Hfuel. unfold patchLabelBytesIfNeeded.
  pose proof (scanFrom_invariant
    (fun _ st => length (bytes st) = length B /\
                 isAlphaChar (bytes st !! (length B - 1)%nat) = true /\
                 findParenthStart (bytes st) = -1)
    fuel (length B)) as H.
  specialize (H ltac:(
    intros j st _ (Hlen & Hl & Hp);
    destruct (foundMatch fuel (bytes st) j) as [[|]|] eqn:E;
    [ apply foundMatch_sound in E as (a & b & E);
      split; [now rewrite applyPatch_length|];
      split; [now rewrite (applyPatch_alpha j a b st E Hp)
             |now apply (applyPatch_keeps_plain j a b)]
    | now repeat split
    | exact I ])
    (length B) 0%nat (mkState B []) eq_refl ltac:(now repeat split)).
  destruct (scanFrom fuel (length B) 0 (mkState B [])) as [st|st].
  - now exists st.
  - exfalso. destruct H as (j & _ & (Hlen & Hl & _) & Hnone).
    rewrite <- Hlen in Hl.
    destruct (matchPattern_total fuel (bytes st) j Hl ltac:(lia)
                SEARCH_PATTERN_BYTES 0%nat) as [r Hr].
    unfold foundMatch in Hnone. congruence.
Qed.

(** X15: when the data [a[0]] returns has a [Uint8Array] for label bytes,
    with no opening parenthesis followed by a letter and a letter for
    last byte, [hookedFunction] returns, given [length] iterations for
    each gap loop: the data has all its other properties, and label bytes
    of the same length in which every fuzzy match of the bytes received
    stands patched and no fuzzy match is left. *)
Theorem hook_returns_patched_label_bytes :
  forall (Args T : Type) fuel (a0 : Args -> option (Data T)) rest args d B,
    a0 args = Some d ->
    labelGroupBytes d = FieldBytes B ->
    findParenthStart B = -1 ->
    isAlphaChar (B !! (length B - 1)%nat) = true ->
    (length B <= fuel)%nat ->
    exists B',
      hookedFunction fuel (a0 :: rest) args
      = Returns (mkData (FieldBytes B') (others d)) /\
      length B' = length B /\
      (forall i a b, FuzzyMatchAt B i a b -> PatchedAt B' i a b) /\
      (forall i a b, ~ FuzzyMatchAt B' i a b).
Proof.
  intros Args T fuel a0 rest args d B Ed Ef Hno Hlast Hfuel.
  destruct (plain_letter_ended_returns fuel B Hno Hlast Hfuel) as [st Est].
  exists (bytes st). unfold hookedFunction. rewrite Ed, Ef, Est.
  split; [reflexivity|].
  assert (patched fuel B = bytes st) as Ep
    by (unfold patched; now rewrite Est).
  split; [rewrite <- Ep; apply patched_length|]. split.
  - intros i a b Hi. rewrite <- Ep. now apply every_occurrence_patched.
  - now apply (returned_buffer_unmatched fuel B st).
Qed.

Lemma hook_returns_patched_label_bytes_witness :
  exists B',
    hookedFunction 19
      [fun n : nat => Some (mkData (FieldBytes (charCodes "Gulf,,of Mexico bay")) n)]
      7%nat
    = Returns (mkData (FieldBytes B') 7%nat) /\
    length B' = length (charCodes "Gulf,,of Mexico bay") /\
    (forall i a b, FuzzyMatchAt (charCodes "Gulf,,of Mexico bay") i a b ->
       PatchedAt B' i a b) /\
    (forall i a b, ~ FuzzyMatchAt B' i a b).
Proof.
  apply (hook_returns_patched_label_bytes nat nat 19
           (fun n : nat =>
              Some (mkData (FieldBytes (charCodes "Gulf,,of Mexico bay")) n))
           [] 7%nat
           (mkData (FieldBytes (charCodes "Gulf,,of Mexico bay")) 7%nat)
           (charCodes "Gulf,,of Mexico bay")).
  - reflexivity.
  - reflexivity.
  - vm_compute. reflexivity.
  - reflexivity.
  - simpl. lia.
Defined.

(** X16: when the label bytes of the data [a[0]] returns are no
    [Uint8Array], or hold "Gulf" nowhere, [hookedFunction] returns that
    data as it is, whatever the iterations allowed. *)
Theorem hook_hands_on_data_without_Gulf :
  forall (Args T : Type) fuel (a0 : Args -> option (Data T)) rest args d,
    a0 args = Some d ->
    (forall B i, labelGroupBytes d = FieldBytes B ->
       ~ wordAt (charCodes "Gulf") B i) ->
    hookedFunction fuel (a0 :: rest) args = Returns d.
Proof.
  intros Args T fuel a0 rest args [f o] Ed Hno. unfold hookedFunction.
  rewrite Ed. simpl labelGroupBytes in *.
  destruct f as [| |B]; try reflexivity.
  assert (patchLabelBytesIfNeeded fuel B = Finished (mkState B [])) as ->.
  { apply decided_unmatched_returns.
    - intros i a b (Hw & _). now apply (Hno B i).
    - intros j _. exists false. now apply foundMatch_needs_Gulf, Hno. }
  reflexivity.
Qed.

Lemma hook_hands_on_data_without_Gulf_witness :
  hookedFunction 0
    [fun n : nat =>
       Some (mkData (FieldBytes (charCodes "Golfo de Mexico (")) n)] 5%nat
  = Returns (mkData (FieldBytes (charCodes "Golfo de Mexico (")) 5%nat).
Proof.
  apply (hook_hands_on_data_without_Gulf nat nat 0
           (fun n : nat =>
              Some (mkData (FieldBytes (charCodes "Golfo de Mexico (")) n))
           [] 5%nat).
  - reflexivity.
  - intros B i [= <-] Hw.
    pose proof (Hw 1%nat 117 eq_refl) as E1.
    pose proof (Hw 0%nat 71 eq_refl) as E0. rewrite Nat.add_0_r in E0.
    apply lookup_lt_Some in E1 as Hlen. simpl in Hlen.
    do 17 (destruct i as [|i]; [discriminate E0 || discriminate E1|]). lia.
Defined.
